(** * VISADevice: the instrument-session wrapper of the BK9130B adapter

    A shallow embedding of the class [VISADevice] (VISADevice.h).  The class
    keeps a handful of fields and talks to the VISA driver through C calls
    with out-parameters.  The fields become a record, every method becomes a
    function in a small state monad over the object and the trace of driver
    calls, and the driver itself is a parameter of the development: an
    arbitrary function from the calls made so far and the current call to
    the reply of that call. *)

From Stdlib Require Import ZArith Lia Bool Ascii String List.
From stdpp Require Import base list strings.
Import ListNotations.
Open Scope Z_scope.

(** ** Types and constants of visa.h *)

Definition ViStatus := Z.      (* ViInt32 *)
Definition ViSession := Z.     (* ViUInt32 handle: session, device, find list *)
Definition ViAttr := Z.
Definition ViAttrState := Z.
Definition ViAccessMode := Z.
Definition ViUInt32 := Z.
Definition ViByte := ascii.    (* unsigned char *)

(** Modelled from the spec: visa.h belongs to the VISA library and is not
    among the sources.  The spec counts only negative status codes as
    failures, which puts the success threshold at zero. *)
Definition VI_SUCCESS : ViStatus := 0.

(** Modelled from the spec: visa.h is not among the sources; the comment
    above ATTR_MAX_LENGTH in VISADevice.h gives the value of the discovery
    buffer length as 256. *)
Definition VI_FIND_BUFLEN : nat := 256.

(** Attribute identifiers and the default access mode, as the VISA
    specification numbers them.  No statement below depends on the values. *)
Definition VI_ATTR_TERMCHAR : ViAttr := 0x3FFF0018.
Definition VI_ATTR_MANF_NAME : ViAttr := 0xBFFF0072.
Definition VI_ATTR_MODEL_NAME : ViAttr := 0xBFFF0077.
Definition VI_ATTR_INTF_INST_NAME : ViAttr := 0xBFFF00E9.
Definition VI_NO_LOCK : ViAccessMode := 0.

(** #define ERROR_MSG_MAX 512, #define ATTR_MAX_LENGTH 1024 *)
Definition ERROR_MSG_MAX : nat := 512.
Definition ATTR_MAX_LENGTH : nat := 1024.

(** static_cast<ViUInt32>(n): reduction modulo 2^32.  The operand of the one
    cast in the class is a size_t, itself taken modulo a multiple of 2^32. *)
Definition to_ViUInt32 (n : Z) : ViUInt32 := n mod 2 ^ 32.

(** Storing through a ViUInt8 pointer keeps the low eight bits. *)
Definition to_ViUInt8 (n : Z) : ascii := ascii_of_N (Z.to_N (n mod 2 ^ 8)).

(** ** Character buffers

    A [char*] designates memory; [Buffer] gives the character at each offset
    from the pointer.  Offsets past the allocation are still offsets of the
    function, so that what C leaves undefined is visible in the model as a
    read or write outside the first [n] places. *)

Definition Buffer := nat -> ascii.

Definition NUL : ascii := "000"%char.

(** buf[i] = c *)
Definition poke (buf : Buffer) (i : nat) (c : ascii) : Buffer :=
  fun j => if Nat.eqb j i then c else buf j.

(** std::string(buf + from, n): exactly n characters, NUL or not. *)
Fixpoint string_n (buf : Buffer) (from n : nat) : string :=
  match n with
  | O => EmptyString
  | S n' => String (buf from) (string_n buf (S from) n')
  end.

(** std::string(buf + from): the characters before the first NUL.  The
    constructor scans without bound; [fuel] is the size of the array, whose
    last place every caller sets to NUL first ([string_z_fuel] below). *)
Fixpoint string_z (buf : Buffer) (from fuel : nat) : string :=
  match fuel with
  | O => EmptyString
  | S fuel' =>
      if Ascii.eqb (buf from) NUL then EmptyString
      else String (buf from) (string_z buf (S from) fuel')
  end.

(** The first [count] bytes a callee reads from [buf]. *)
Definition bytes (buf : Buffer) (count : Z) : list ascii :=
  map buf (seq 0 (Z.to_nat count)).

(** std::copy(msg.begin(), msg.end(), buf + from) *)
Fixpoint copy_string (msg : string) (buf : Buffer) (from : nat) : Buffer :=
  match msg with
  | EmptyString => buf
  | String c msg' => copy_string msg' (poke buf from c) (S from)
  end.

(** Whether a string holds a NUL character. *)
Fixpoint has_NUL (s : string) : bool :=
  match s with
  | EmptyString => false
  | String c s' => Ascii.eqb c NUL || has_NUL s'
  end.

(** ** join (the free template function of VISADevice.h) *)

Fixpoint join_loop (l : list string) (sep : string) (addSep : bool)
    (result : string) : string :=
  match l with
  | [] => result
  | x :: l' =>
      join_loop l' sep true
        ((if addSep then result +:+ sep else result) +:+ x)
  end.

Definition join (l : list string) (sep : string) : string :=
  join_loop l sep false EmptyString.

(** ** The driver

    One constructor per function the class calls outside itself: the VISA
    entry points, and the thread sleep of [query]. *)

Inductive Call : Type :=
| viOpenDefaultRM
| viOpen (sesn : ViSession) (name : string) (mode : ViAccessMode)
         (timeout : ViUInt32)
| viClose (vi : ViSession)
| viGetAttribute (vi : ViSession) (attr : ViAttr)
| viSetAttribute (vi : ViSession) (attr : ViAttr) (state : ViAttrState)
| viWrite (vi : ViSession) (buf : list ascii) (count : ViUInt32)
| viRead (vi : ViSession) (count : ViUInt32)
| viFindRsrc (sesn : ViSession) (expr : string)
| viFindNext (findList : ViSession)
| viStatusDesc (vi : ViSession) (status : ViStatus)
| sleep_for (ms : ViUInt32).

(** What a call leaves behind: its status, and the contents of its output
    locations after it returned.  A call that does not write to one of them
    replies with what was there before; for a fresh array that is whatever
    the allocation held.
    - [r_out]: the scalar out-parameter (session, device or find-list
      handle, attribute value);
    - [r_count]: the ViUInt32 count (retCnt of viRead, retcnt of viFindRsrc);
    - [r_buf]: the character buffer handed to the call. *)
Record Reply : Type := mkReply {
  r_status : ViStatus;
  r_out : Z;
  r_count : ViUInt32;
  r_buf : Buffer
}.

Definition Event : Type := Call * Reply.

(** The driver is deterministic in the history of the run. *)
Definition Driver : Type := list Event -> Call -> Reply.

Definition is_sleep (c : Call) : bool :=
  match c with sleep_for _ => true | _ => false end.

Definition is_viRead (c : Call) : bool :=
  match c with viRead _ _ => true | _ => false end.

Definition is_viClose (c : Call) : bool :=
  match c with viClose _ => true | _ => false end.

(** ** The object *)

Record VISADevice : Type := mkVISADevice {
  session_ : ViSession;
  device_ : ViSession;
  initialized_ : bool;
  open_ : bool;
  closeCmd_ : string;
  lastError_ : string;
  termChar_ : ascii;      (* ViUInt8 *)
  timeout_ : ViUInt32
}.

Definition set_session_ (v : ViSession) (o : VISADevice) : VISADevice :=
  mkVISADevice v (device_ o) (initialized_ o) (open_ o) (closeCmd_ o)
    (lastError_ o) (termChar_ o) (timeout_ o).
Definition set_device_ (v : ViSession) (o : VISADevice) : VISADevice :=
  mkVISADevice (session_ o) v (initialized_ o) (open_ o) (closeCmd_ o)
    (lastError_ o) (termChar_ o) (timeout_ o).
Definition set_initialized_ (v : bool) (o : VISADevice) : VISADevice :=
  mkVISADevice (session_ o) (device_ o) v (open_ o) (closeCmd_ o)
    (lastError_ o) (termChar_ o) (timeout_ o).
Definition set_open_ (v : bool) (o : VISADevice) : VISADevice :=
  mkVISADevice (session_ o) (device_ o) (initialized_ o) v (closeCmd_ o)
    (lastError_ o) (termChar_ o) (timeout_ o).
Definition set_closeCmd_ (v : string) (o : VISADevice) : VISADevice :=
  mkVISADevice (session_ o) (device_ o) (initialized_ o) (open_ o) v
    (lastError_ o) (termChar_ o) (timeout_ o).
Definition set_lastError_ (v : string) (o : VISADevice) : VISADevice :=
  mkVISADevice (session_ o) (device_ o) (initialized_ o) (open_ o)
    (closeCmd_ o) v (termChar_ o) (timeout_ o).
Definition set_termChar_ (v : ascii) (o : VISADevice) : VISADevice :=
  mkVISADevice (session_ o) (device_ o) (initialized_ o) (open_ o)
    (closeCmd_ o) (lastError_ o) v (timeout_ o).
Definition set_timeout_ (v : ViUInt32) (o : VISADevice) : VISADevice :=
  mkVISADevice (session_ o) (device_ o) (initialized_ o) (open_ o)
    (closeCmd_ o) (lastError_ o) (termChar_ o) v.

(** The object together with the calls made so far, oldest first. *)
Record World : Type := mkWorld {
  self : VISADevice;
  trace : list Event
}.

(** ** The monad of methods *)

Definition M (A : Type) : Type := World -> A * World.

Definition ret {A : Type} (a : A) : M A := fun w => (a, w).

Definition bind {A B : Type} (m : M A) (f : A -> M B) : M B :=
  fun w => let (a, w') := m w in f a w'.

Definition this : M VISADevice := fun w => (self w, w).

Definition assign (f : VISADevice -> VISADevice) : M unit :=
  fun w => (tt, mkWorld (f (self w)) (trace w)).

Declare Scope visa_scope.
Delimit Scope visa_scope with visa.
Notation "'do' x <- m ; k" := (bind m (fun x => k))
  (at level 10, x name, m at level 100, k at level 200) : visa_scope.
Notation "'run' m ; k" := (bind m (fun _ => k))
  (at level 10, m at level 100, k at level 200) : visa_scope.
Notation "'when' b 'then' m" := (if b then m else ret tt)
  (at level 10, b at level 100, m at level 200) : visa_scope.
Open Scope visa_scope.

(** The events a run added to the trace of [w]. *)
Definition emitted (w w' : World) : list Event :=
  drop (length (trace w)) (trace w').

Section Methods.

Variable drv : Driver.

Definition call (c : Call) : M Reply :=
  fun w =>
    let r := drv (trace w) c in
    (r, mkWorld (self w) (trace w ++ [(c, r)])).

(** *** processStatus *)

Definition processStatus (status : ViStatus) : M bool :=
  if status <? VI_SUCCESS then
    do o <- this;
    run (if open_ o || initialized_ o then
           let tmp := if open_ o then device_ o else session_ o in
           do r <- call (viStatusDesc tmp status);
           let buf := poke (r_buf r) (ERROR_MSG_MAX - 1) NUL in
           assign (set_lastError_ (string_z buf 0 ERROR_MSG_MAX))
         else
           assign
             (set_lastError_ "Neither session nor device is initialized"));
    ret false
  else ret true.

(** *** getLastError, isInitialized, isOpen, onClose *)

Definition getLastError : M string :=
  do o <- this;
  let tmp := lastError_ o in
  run assign (set_lastError_ EmptyString);
  ret tmp.

Definition isInitialized : M bool := do o <- this; ret (initialized_ o).

Definition isOpen : M bool := do o <- this; ret (open_ o).

Definition onClose (cmd : string) : M unit := assign (set_closeCmd_ cmd).

(** *** write *)

(** bool write(ViByte* msg, ViUInt32 msgSize), the private overload *)
Definition write_bytes (msg : Buffer) (msgSize : ViUInt32) : M bool :=
  do o <- this;
  if initialized_ o && open_ o then
    do r <- call (viWrite (device_ o) (bytes msg msgSize) msgSize);
    processStatus (r_status r)
  else ret false.

(** The array [write] hands to the driver: [fresh] is what new ViByte[bufSize]
    returned, the message is copied to its start and the terminator stored at
    offset bufSize-1, an unsigned 32-bit subtraction. *)
Definition frame (fresh : Buffer) (msg : string) (term : ascii)
    (bufSize : ViUInt32) : Buffer :=
  poke (copy_string msg fresh 0) (Z.to_nat (to_ViUInt32 (bufSize - 1))) term.

(** What write(msg) does to the array it allocates.  [write_bufSize] is
    the number of elements of new ViByte[bufSize], msg.length() + 1 cast to
    32 bits; std::copy stores to the places 0 .. msg.length()-1 and the
    terminator goes to [terminator_place], bufSize-1 in unsigned 32-bit
    arithmetic.  [within_array] tells whether every one of these stores
    falls inside the array. *)
Definition write_bufSize (msg : string) : ViUInt32 :=
  to_ViUInt32 (Z.of_nat (String.length msg) + 1).

Definition terminator_place (msg : string) : Z :=
  to_ViUInt32 (write_bufSize msg - 1).

Definition within_array (msg : string) : bool :=
  (Z.of_nat (String.length msg) <=? write_bufSize msg) &&
  (terminator_place msg <? write_bufSize msg).

(** bool write(const std::string& msg).  The contents of the fresh array do
    not reach the driver ([bytes_frame_fresh] below), NUL stands for them.
    The definition follows the source where [within_array msg] holds, that
    is for msg.length() + 1 < 2^32 ([within_array_iff] below).  Beyond
    that the array is shorter than the message, std::copy and the store of
    the terminator run past its end, and what the C++ program does is not
    defined: the flat [Buffer] shows where the stores land, nothing is
    claimed of the driver call that follows them. *)
Definition write (msg : string) : M bool :=
  let bufSize := to_ViUInt32 (Z.of_nat (String.length msg) + 1) in
  do o <- this;
  let buf := frame (fun _ => NUL) msg (termChar_ o) bufSize in
  write_bytes buf bufSize.

Definition getCmdSeperator : M string :=
  do o <- this;
  ret (";" +:+ String (termChar_ o) EmptyString).

(** bool write(const std::vector<std::string>& list) *)
Definition write_list (list : list string) : M bool :=
  do sep <- getCmdSeperator;
  write (join list sep).

(** void onClose(const std::vector<std::string>& cmds) *)
Definition onClose_list (cmds : list string) : M unit :=
  do sep <- getCmdSeperator;
  assign (set_closeCmd_ (join cmds sep)).

(** *** close, open, constructor and destructor *)

Definition close_warning : string :=
  "[WARN]: failed to send onClose command!" +:+ String "010"%char EmptyString.

Definition close : M bool :=
  do o <- this;
  run (when open_ o then
         run (when negb (String.eqb (closeCmd_ o) EmptyString) then
                do sent <- write (closeCmd_ o);
                when negb sent then assign (set_lastError_ close_warning));
         do r <- call (viClose (device_ o));
         do ok <- processStatus (r_status r);
         when ok then assign (set_open_ false));
  do o' <- this;
  ret (negb (open_ o')).

Definition open (deviceStr : string) (accessMode : ViAccessMode)
    (timeout : ViUInt32) : M bool :=
  run assign (set_timeout_ timeout);
  do o <- this;
  if initialized_ o then
    do r <- call (viOpen (session_ o) deviceStr accessMode timeout);
    run assign (set_device_ (r_out r));
    do opened <- processStatus (r_status r);
    if opened then
      run assign (set_open_ true);
      do o' <- this;
      do r' <- call (viGetAttribute (device_ o') VI_ATTR_TERMCHAR);
      run assign (set_termChar_ (to_ViUInt8 (r_out r')));
      do success <- processStatus (r_status r');
      run (when negb success then (do _ <- close; ret tt));
      ret success
    else ret false
  else ret false.

(** VISADevice() : closeCmd_(""), lastError_("").  A constructor runs on the
    storage of the new object: the world it starts from holds, in the fields
    the initialiser list does not name, whatever that storage held. *)
Definition VISADevice_ctor : M unit :=
  run assign (set_closeCmd_ EmptyString);
  run assign (set_lastError_ EmptyString);
  do r <- call viOpenDefaultRM;
  run assign (set_session_ (r_out r));
  do ok <- processStatus (r_status r);
  when ok then assign (set_initialized_ true).

Definition VISADevice_dtor : M unit :=
  do o <- this;
  when initialized_ o then
    run (when open_ o then (do _ <- close; ret tt));
    do o' <- this;
    when negb (open_ o') then
      do r <- call (viClose (session_ o'));
      do ok <- processStatus (r_status r);
      when ok then assign (set_initialized_ false).

(** *** findInstruments *)

(** The for loop over k = 1 .. retSize-1, [n] iterations left.  The vector
    is written through operator[]. *)
Fixpoint findNext_loop (findList : ViSession) (n : nat) (k : nat)
    (instrList : list string) : M (list string) :=
  match n with
  | O => ret instrList
  | S n' =>
      do r <- call (viFindNext findList);
      do ok <- processStatus (r_status r);
      if ok then
        let buf := poke (r_buf r) (VI_FIND_BUFLEN - 1) NUL in
        findNext_loop findList n' (S k)
          (<[k := string_z buf 0 VI_FIND_BUFLEN]> instrList)
      else ret instrList
  end.

(** std::vector<std::string> findInstruments(const std::string& expr).
    instrList[0] is assigned without a test on retSize.  The definition
    follows the source when viFindRsrc fails or the session is not
    initialized (the vector stays empty) and when retSize > 0.  For a
    successful viFindRsrc with retSize = 0 the source stores into the
    first element of an empty vector, which C++ leaves undefined; the list
    update below does nothing there, and no statement is made of that
    case. *)
Definition findInstruments (expr : string) : M (list string) :=
  do o <- this;
  if initialized_ o then
    do r <- call (viFindRsrc (session_ o) expr);
    do ok <- processStatus (r_status r);
    if ok then
      let retSize := Z.to_nat (r_count r) in
      let instrList := replicate retSize EmptyString in
      let instrList :=
        <[0%nat := string_n (r_buf r) 0 VI_FIND_BUFLEN]> instrList in
      findNext_loop (r_out r) (retSize - 1) 1 instrList
    else ret []
  else ret [].

(** *** attributes *)

Definition setAttribute (attribute : ViAttr) (state : ViAttrState) : M bool :=
  do o <- this;
  if open_ o then
    do r <- call (viSetAttribute (device_ o) attribute state);
    processStatus (r_status r)
  else ret false.

(** bool getScalarAttribute(ViAttr attribute, T* ptr): [ptr] is the value
    at the pointer before the call, the result pairs the returned flag with
    the value there afterwards. *)
Definition getScalarAttribute (attribute : ViAttr) (ptr : Z) : M (bool * Z) :=
  do o <- this;
  if open_ o then
    do r <- call (viGetAttribute (device_ o) attribute);
    do success <- processStatus (r_status r);
    ret (success, r_out r)
  else ret (false, ptr).

Definition getStringAttribute (attribute : ViAttr) : M string :=
  do o <- this;
  if open_ o then
    do r <- call (viGetAttribute (device_ o) attribute);
    do _ <- processStatus (r_status r);
    let buf := poke (r_buf r) (ATTR_MAX_LENGTH - 1) NUL in
    ret (string_z buf 0 ATTR_MAX_LENGTH)
  else ret EmptyString.

(** The three attribute reads are operands of one string concatenation;
    C++ leaves their order open, the model takes them left to right. *)
Definition getDeviceDescription : M string :=
  do o <- this;
  if open_ o then
    do manf <- getStringAttribute VI_ATTR_MANF_NAME;
    do model <- getStringAttribute VI_ATTR_MODEL_NAME;
    do intf <- getStringAttribute VI_ATTR_INTF_INST_NAME;
    ret (EmptyString +:+ (manf +:+ " : " +:+ model +:+ " : " +:+ intf))
  else ret EmptyString.

(** *** read and query *)

Definition read (bufSize : ViUInt32) : M string :=
  do o <- this;
  if initialized_ o && open_ o then
    do r <- call (viRead (device_ o) bufSize);
    do ok <- processStatus (r_status r);
    if ok then ret (string_n (r_buf r) 0 (Z.to_nat (r_count r)))
    else ret EmptyString
  else ret EmptyString.

(** The default argument of read: 0x00000400 *)
Definition read_default_bufSize : ViUInt32 := 0x400.

Definition query (msg : string) : M string :=
  do success <- write msg;
  if success then
    do o <- this;
    do _ <- call (sleep_for (timeout_ o));
    read read_default_bufSize
  else ret EmptyString.

End Methods.

(** ** Vocabulary of the statements *)

(** The calls [write] and [processStatus] make. *)
Definition is_write_or_desc (c : Call) : bool :=
  match c with
  | viWrite _ _ _ | viStatusDesc _ _ => true
  | _ => false
  end.

(** [w'] differs from [w] at most in Last Error and by calls to viWrite and
    viStatusDesc added to the trace. *)
Definition errs (w w' : World) : Prop :=
  exists err evs,
    w' = mkWorld (set_lastError_ err (self w)) (trace w ++ evs) /\
    forallb (fun e : Event => is_write_or_desc (fst e)) evs = true.

(** The world after one more event. *)
Definition record (w : World) (c : Call) (r : Reply) : World :=
  mkWorld (self w) (trace w ++ [(c, r)]).

Definition is_viWrite (c : Call) : bool :=
  match c with viWrite _ _ _ => true | _ => false end.

(** The first part of the body of [close]: the registered command, sent
    best-effort. *)
Definition close_command (drv : Driver) : M unit :=
  do o <- this;
  when negb (String.eqb (closeCmd_ o) EmptyString) then
    do sent <- write drv (closeCmd_ o);
    when negb sent then assign (set_lastError_ close_warning).

(** The replies to the two calls [open] starts with. *)
Definition viOpen_reply (drv : Driver) (w : World) (deviceStr : string)
    (accessMode : ViAccessMode) (timeout : ViUInt32) : Reply :=
  drv (trace w) (viOpen (session_ (self w)) deviceStr accessMode timeout).

Definition termchar_reply (drv : Driver) (w : World) (deviceStr : string)
    (accessMode : ViAccessMode) (timeout : ViUInt32) : Reply :=
  let c := viOpen (session_ (self w)) deviceStr accessMode timeout in
  let r := viOpen_reply drv w deviceStr accessMode timeout in
  drv (trace w ++ [(c, r)]) (viGetAttribute (r_out r) VI_ATTR_TERMCHAR).

(** The world [open] reaches once viOpen succeeded and the terminator was
    asked for, before the status of that second call is looked at. *)
Definition after_termchar (drv : Driver) (w : World) (deviceStr : string)
    (accessMode : ViAccessMode) (timeout : ViUInt32) : World :=
  let c := viOpen (session_ (self w)) deviceStr accessMode timeout in
  let r := viOpen_reply drv w deviceStr accessMode timeout in
  let r' := termchar_reply drv w deviceStr accessMode timeout in
  mkWorld
    (set_termChar_ (to_ViUInt8 (r_out r'))
       (set_open_ true (set_device_ (r_out r) (set_timeout_ timeout (self w)))))
    (trace w ++ [(c, r); (viGetAttribute (r_out r) VI_ATTR_TERMCHAR, r')]).

(** The text [processStatus] stores for a failure described by the driver. *)
Definition description (r : Reply) : string :=
  string_z (poke (r_buf r) (ERROR_MSG_MAX - 1) NUL) 0 ERROR_MSG_MAX.

(** What a failing [processStatus] stores in Last Error: the description the
    driver gives for the device handle when the device is open, for the
    session handle when only the session is initialized, and a fixed text
    when neither is. *)
Definition failure_text (drv : Driver) (w : World) (status : ViStatus)
    : string :=
  let o := self w in
  if open_ o || initialized_ o then
    description
      (drv (trace w)
         (viStatusDesc (if open_ o then device_ o else session_ o) status))
  else "Neither session nor device is initialized".

(** The element findInstruments builds from the buffer of a viFindNext. *)
Definition truncated (r : Reply) : string :=
  string_z (poke (r_buf r) (VI_FIND_BUFLEN - 1) NUL) 0 VI_FIND_BUFLEN.

(** ** Drivers and storage for the examples *)

(** VI_ERROR_SYSTEM_ERROR, 0xBFFF0000 as a ViInt32 *)
Definition VI_ERROR_SYSTEM_ERROR : ViStatus := -1073807360.

(** A buffer holding [s] followed by NUL characters. *)
Definition buffer_of (s : string) : Buffer :=
  fun i => match String.get i s with Some c => c | None => NUL end.

(** A driver that fails exactly the calls [fails] selects, and otherwise
    hands out session 1, device 2, find list 3, two instruments, the
    attribute value 10 (a line feed, as terminator) and the text below. *)
Definition mock (fails : Call -> bool) : Driver :=
  fun _ c =>
    let status := if fails c then VI_ERROR_SYSTEM_ERROR else VI_SUCCESS in
    match c with
    | viOpenDefaultRM => mkReply status 1 0 (buffer_of "")
    | viOpen _ _ _ _ => mkReply status 2 0 (buffer_of "")
    | viGetAttribute _ _ => mkReply status 10 0 (buffer_of "B&K Precision")
    | viFindRsrc _ _ =>
        mkReply status 3 2 (buffer_of "USB0::0xFFFF::0x9130::INSTR")
    | viFindNext _ =>
        mkReply status 0 0 (buffer_of "USB0::0xFFFF::0x9131::INSTR")
    | viRead _ _ => mkReply status 0 4 (buffer_of "1.50")
    | viStatusDesc _ _ => mkReply VI_SUCCESS 0 0 (buffer_of "System error")
    | _ => mkReply status 0 0 (buffer_of "")
    end.

Definition never (c : Call) : bool := false.

(** A buffer holding [s], a NUL, and what an earlier use left behind it. *)
Definition leftovers (s : string) : Buffer :=
  buffer_of (s +:+ String NUL "ASRL1::INSTR").

(** A driver that finds two instruments and writes their identifiers into
    a buffer that held something longer before; otherwise as [mock never]. *)
Definition stale_finder : Driver :=
  fun t c =>
    match c with
    | viFindRsrc _ _ =>
        mkReply VI_SUCCESS 3 2 (leftovers "USB0::0xFFFF::0x9130::INSTR")
    | viFindNext _ =>
        mkReply VI_SUCCESS 0 0 (leftovers "USB0::0xFFFF::0x9131::INSTR")
    | _ => mock never t c
    end.

Definition is_viOpenDefaultRM (c : Call) : bool :=
  match c with viOpenDefaultRM => true | _ => false end.

Definition is_viGetAttribute (c : Call) : bool :=
  match c with viGetAttribute _ _ => true | _ => false end.

Definition is_viOpen (c : Call) : bool :=
  match c with viOpen _ _ _ _ => true | _ => false end.

Definition is_viFindRsrc (c : Call) : bool :=
  match c with viFindRsrc _ _ => true | _ => false end.

(** Storage for a new object: all zero; with a nonzero byte where
    initialized_ lies; with a nonzero byte where open_ lies. *)
Definition zeroed : VISADevice :=
  mkVISADevice 0 0 false false EmptyString EmptyString NUL 0.

Definition stale_initialized : VISADevice :=
  mkVISADevice 0 0 true false EmptyString EmptyString NUL 0.

Definition stale_open : VISADevice :=
  mkVISADevice 0 0 false true EmptyString EmptyString NUL 0.

(** The resource the examples open. *)
Definition usb : string := "USB0::0xFFFF::0x9130::INSTR".

(** A constructed object, and one whose device was opened, under [drv]. *)
Definition constructed (drv : Driver) (storage : VISADevice) : World :=
  snd (VISADevice_ctor drv (mkWorld storage [])).

Definition opened (drv : Driver) : World :=
  snd (open drv usb VI_NO_LOCK 2000 (constructed drv zeroed)).

(** A message of 2^32 - 1 characters. *)
Definition huge_message : string :=
  string_n (fun _ => "a"%char) 0 (Z.to_nat (2 ^ 32 - 1)).

(** ** Vocabulary of the further statements *)

Definition is_viFindNext (c : Call) : bool :=
  match c with viFindNext _ => true | _ => false end.

Definition is_viStatusDesc (c : Call) : bool :=
  match c with viStatusDesc _ _ => true | _ => false end.

(** Whether a reply carries a status that is not a failure. *)
Definition succeeded (r : Reply) : bool := VI_SUCCESS <=? r_status r.

(** [w'] differs from [w] at most in Last Error and by calls added to the
    trace. *)
Definition error_only (w w' : World) : Prop :=
  exists (err : string) (evs : list Event),
    w' = mkWorld (set_lastError_ err (self w)) (trace w ++ evs).

(** Between [w] and [w'] the handles, the flags, the close command, the
    terminator and the timeout are the same, and the trace only grew: at
    most Last Error differs. *)
Definition keeps_session (w w' : World) : Prop :=
  session_ (self w') = session_ (self w) /\
  device_ (self w') = device_ (self w) /\
  initialized_ (self w') = initialized_ (self w) /\
  open_ (self w') = open_ (self w) /\
  closeCmd_ (self w') = closeCmd_ (self w) /\
  termChar_ (self w') = termChar_ (self w) /\
  timeout_ (self w') = timeout_ (self w) /\
  exists evs : list Event, trace w' = trace w ++ evs.

(** [w'] differs from [w] at most in Last Error and by viStatusDesc calls
    added to the trace. *)
Definition described (w w' : World) : Prop :=
  exists (err : string) (evs : list Event),
    w' = mkWorld (set_lastError_ err (self w)) (trace w ++ evs) /\
    forallb (fun e : Event => is_viStatusDesc (fst e)) evs = true.

(** The class invariant the guards rely on: a device is open only on an
    initialized session. *)
Definition open_implies_initialized (w : World) : Prop :=
  open_ (self w) = true -> initialized_ (self w) = true.

(** The sum of the lengths of the strings of a list. *)
Definition total_length (l : list string) : nat :=
  fold_right (fun s n => (String.length s + n)%nat) 0%nat l.

(** ** The adapter (BK9130B.h, BK9130B.cpp)

    The methods of class BK9130B that work on its own members and on the
    VISADevice member.  The property store, the logger and the error texts
    belong to the base class of the host framework, which is not among the
    sources: LogMessage is kept as the list of the messages logged, the
    value of a property is handed to the handler and handed back. *)

Module Adapter.

(** Error codes of BK9130B.h *)
Definition ERR_INVALID_CHANNEL : Z := 102.
Definition ERR_INVALID_VOLTAGE : Z := 103.
Definition ERR_INVALID_CURRENT : Z := 104.
Definition ERR_WRITE_FAILED : Z := 105.
Definition ERR_READ_FAILED : Z := 106.
Definition ERR_QUERY_FAILED : Z := 107.

(** Return codes of the host framework (MMDeviceConstants.h, not among the
    sources), with the values it gives them. *)
Definition DEVICE_OK : Z := 0.
Definition DEVICE_ERR : Z := 1.
Definition DEVICE_UNSUPPORTED_COMMAND : Z := 11.

(** MM::ActionType of the host framework. *)
Inductive ActionType : Type :=
| NoAction | BeforeGet | AfterSet | IsSequenceable | AfterLoadSequence
| StartSequence | StopSequence.

(** The members of the class.  [dev_] is the VISADevice member together
    with the trace of its driver calls; [logged] collects the arguments of
    LogMessage, oldest first.  The two double members (outputVoltage_,
    outputCurrent_) are read and written by OnOutputChange alone and are
    left out with it. *)
Record BK9130B : Type := mkBK9130B {
  dev_ : World;
  initialized_ : bool;
  busy_ : bool;
  timeout_ : Z;
  activeChannel_ : string;
  activeChannelState_ : bool;
  logged : list string
}.

Definition set_dev_ (v : World) (a : BK9130B) : BK9130B :=
  mkBK9130B v (initialized_ a) (busy_ a) (timeout_ a) (activeChannel_ a)
    (activeChannelState_ a) (logged a).
Definition set_initialized_ (v : bool) (a : BK9130B) : BK9130B :=
  mkBK9130B (dev_ a) v (busy_ a) (timeout_ a) (activeChannel_ a)
    (activeChannelState_ a) (logged a).
Definition set_activeChannel_ (v : string) (a : BK9130B) : BK9130B :=
  mkBK9130B (dev_ a) (initialized_ a) (busy_ a) (timeout_ a) v
    (activeChannelState_ a) (logged a).
Definition set_activeChannelState_ (v : bool) (a : BK9130B) : BK9130B :=
  mkBK9130B (dev_ a) (initialized_ a) (busy_ a) (timeout_ a)
    (activeChannel_ a) v (logged a).

(** LogMessage(dev_.getLastError()) *)
Definition LogLastError (a : BK9130B) : BK9130B :=
  let (msg, d) := getLastError (dev_ a) in
  mkBK9130B d (initialized_ a) (busy_ a) (timeout_ a) (activeChannel_ a)
    (activeChannelState_ a) (logged a ++ [msg]).

Definition Shutdown (drv : Driver) (a : BK9130B) : Z * BK9130B :=
  if initialized_ a then
    let (closed, d) := close drv (dev_ a) in
    let a1 := set_dev_ d a in
    let (ret, a2) :=
      if negb closed then (DEVICE_ERR, LogLastError a1) else (DEVICE_OK, a1) in
    (ret, set_initialized_ false a2)
  else (DEVICE_OK, a).

Definition SetOpen (drv : Driver) (open : bool) (a : BK9130B)
    : Z * BK9130B :=
  if negb (Bool.eqb open (activeChannelState_ a)) then
    let stateStr := if open then "ON" else "OFF" in
    let cmd :=
      ["INST:SEL " +:+ activeChannel_ a;
       "SOUR:CHAN:OUTP:STAT " +:+ stateStr] in
    let (sent, d) := write_list drv cmd (dev_ a) in
    let a1 := set_dev_ d a in
    if sent then (DEVICE_OK, set_activeChannelState_ open a1)
    else (ERR_WRITE_FAILED, LogLastError a1)
  else (DEVICE_OK, a).

(** int GetOpen(bool& state): the code returned and the value of [state] *)
Definition GetOpen (a : BK9130B) : Z * bool :=
  (DEVICE_OK, activeChannelState_ a).

(** The text a const char* of the contents of [s] designates: up to the
    first NUL. *)
Fixpoint c_str (s : string) : string :=
  match s with
  | EmptyString => EmptyString
  | String c s' =>
      if Ascii.eqb c NUL then EmptyString else String c (c_str s')
  end.

(** int OnActiveChannel(MM::PropertyBase* pProp, MM::ActionType eAct).
    The property object belongs to the host framework: [got] is the value
    pProp->Get stores, and the result carries, beside the code returned,
    the argument of pProp->Set when the handler calls it. *)
Definition OnActiveChannel (drv : Driver) (got : string)
    (eAct : ActionType) (a : BK9130B) : (Z * option string) * BK9130B :=
  match eAct with
  | BeforeGet =>
      let (tmp, d) := query drv "INST:SEL?" (dev_ a) in
      let a1 := set_dev_ d a in
      if String.eqb tmp EmptyString then
        ((ERR_QUERY_FAILED, None), LogLastError a1)
      else ((DEVICE_OK, Some (c_str tmp)), set_activeChannel_ tmp a1)
  | AfterSet =>
      let a1 := set_activeChannel_ got a in
      let (sent, d) :=
        write drv ("INST:SEL " +:+ activeChannel_ a1) (dev_ a1) in
      let a2 := set_dev_ d a1 in
      if negb sent then ((ERR_WRITE_FAILED, None), LogLastError a2)
      else
        let (reply, d') := query drv "SOUR:CHAN:OUTP:STAT?" (dev_ a2) in
        ((DEVICE_OK, None),
         set_activeChannelState_ (String.eqb reply "1") (set_dev_ d' a2))
  | _ => ((DEVICE_OK, None), a)
  end.

End Adapter.

(** An adapter whose device is [d], initialized, with channel CH1 selected
    and its output off. *)
Definition adapter_on (d : World) : Adapter.BK9130B :=
  Adapter.mkBK9130B d true false 2000 "CH1" false [].

(** * Properties *)

(** ** Buffers and strings *)

Lemma string_n_length (buf : Buffer) (n from : nat) :
  String.length (string_n buf from n) = n.
Proof.
  revert from; induction n as [|n IH]; intros from; simpl; [reflexivity|].
  now rewrite IH.
Qed.

Lemma string_z_no_NUL (buf : Buffer) (fuel from : nat) :
  has_NUL (string_z buf from fuel) = false.
Proof.
  revert from; induction fuel as [|fuel IH]; intros from; simpl.
  - reflexivity.
  - destruct (Ascii.eqb (buf from) NUL) eqn:E; simpl; [reflexivity|].
    now rewrite E, IH.
Qed.

Lemma string_z_length_le (buf : Buffer) (fuel from : nat) :
  (String.length (string_z buf from fuel) <= fuel)%nat.
Proof.
  revert from; induction fuel as [|fuel IH]; intros from; simpl.
  - lia.
  - destruct (Ascii.eqb (buf from) NUL); simpl; [lia|].
    specialize (IH (S from)); lia.
Qed.

(** With a NUL at the last place of the array the scan stops inside it. *)
Lemma string_z_length_lt (buf : Buffer) (n from : nat) :
  buf (from + n)%nat = NUL ->
  (String.length (string_z buf from (S n)) < S n)%nat.
Proof.
  revert from; induction n as [|n IH]; intros from H.
  - simpl. rewrite Nat.add_0_r in H. rewrite H. simpl. lia.
  - change (string_z buf from (S (S n))) with
      (if Ascii.eqb (buf from) NUL then EmptyString
       else String (buf from) (string_z buf (S from) (S n))).
    destruct (Ascii.eqb (buf from) NUL); cbn [String.length]; [lia|].
    assert (buf (S from + n)%nat = NUL) as H'
      by (rewrite <- H; f_equal; lia).
    specialize (IH (S from) H'). lia.
Qed.

(** More fuel than the array is long changes nothing: the bounded scan is
    the unbounded one. *)
Lemma string_z_fuel (buf : Buffer) (n k from : nat) :
  buf (from + n)%nat = NUL ->
  string_z buf from (S n + k) = string_z buf from (S n).
Proof.
  revert from; induction n as [|n IH]; intros from H.
  - rewrite Nat.add_0_r in H. simpl. rewrite H. reflexivity.
  - change (string_z buf from (S (S n) + k)) with
      (if Ascii.eqb (buf from) NUL then EmptyString
       else String (buf from) (string_z buf (S from) (S n + k))).
    change (string_z buf from (S (S n))) with
      (if Ascii.eqb (buf from) NUL then EmptyString
       else String (buf from) (string_z buf (S from) (S n))).
    destruct (Ascii.eqb (buf from) NUL); [reflexivity|].
    rewrite IH; [reflexivity|]. rewrite <- H; f_equal; lia.
Qed.

Lemma poke_same (buf : Buffer) (i : nat) (c : ascii) : poke buf i c i = c.
Proof. unfold poke. now rewrite Nat.eqb_refl. Qed.

Lemma poke_other (buf : Buffer) (i j : nat) (c : ascii) :
  j <> i -> poke buf i c j = buf j.
Proof.
  intros H. unfold poke.
  destruct (Nat.eqb j i) eqn:E; [|reflexivity].
  apply Nat.eqb_eq in E. contradiction.
Qed.

Lemma copy_string_below (msg : string) (buf : Buffer) (from i : nat) :
  (i < from)%nat -> copy_string msg buf from i = buf i.
Proof.
  revert buf from; induction msg as [|c msg IH]; intros buf from H; simpl.
  - reflexivity.
  - rewrite IH by lia. apply poke_other. lia.
Qed.

Lemma copy_string_inside (msg : string) (f g : Buffer) (from i : nat) :
  (from <= i < from + String.length msg)%nat ->
  copy_string msg f from i = copy_string msg g from i.
Proof.
  revert f g from; induction msg as [|c msg IH]; intros f g from H; simpl in *.
  - lia.
  - destruct (Nat.eq_dec i from) as [->|Hne].
    + rewrite !copy_string_below by lia. now rewrite !poke_same.
    + apply IH. lia.
Qed.

Lemma map_copy_string (msg : string) (buf : Buffer) (from : nat) :
  map (copy_string msg buf from) (seq from (String.length msg)) =
  list_ascii_of_string msg.
Proof.
  revert buf from; induction msg as [|c msg IH]; intros buf from; simpl.
  - reflexivity.
  - rewrite copy_string_below by lia. rewrite poke_same.
    f_equal. apply IH.
Qed.

(** When the length of the message plus one fits in 32 bits, the driver
    reads the message followed by the terminator. *)
Lemma bytes_frame (fresh : Buffer) (msg : string) (term : ascii) :
  Z.of_nat (String.length msg) + 1 < 2 ^ 32 ->
  let bufSize := to_ViUInt32 (Z.of_nat (String.length msg) + 1) in
  bufSize = Z.of_nat (String.length msg) + 1 /\
  bytes (frame fresh msg term bufSize) bufSize =
  list_ascii_of_string msg ++ [term].
Proof.
  intros Hfit bufSize.
  assert (bufSize = Z.of_nat (String.length msg) + 1) as Hsize.
  { unfold bufSize, to_ViUInt32. apply Z.mod_small. lia. }
  split; [exact Hsize|].
  rewrite Hsize. unfold bytes, frame.
  replace (Z.of_nat (String.length msg) + 1 - 1)
    with (Z.of_nat (String.length msg)) by lia.
  unfold to_ViUInt32. rewrite Z.mod_small by lia.
  rewrite Nat2Z.id.
  replace (Z.to_nat (Z.of_nat (String.length msg) + 1))
    with (String.length msg + 1)%nat by lia.
  rewrite seq_app, map_app. simpl.
  rewrite poke_same. f_equal.
  rewrite <- (map_copy_string msg fresh 0).
  apply map_ext_in. intros i Hi. apply in_seq in Hi.
  apply poke_other. lia.
Qed.

(** Whatever the length of the message, no byte the driver reads comes from
    the fresh array. *)
Lemma bytes_frame_fresh (f g : Buffer) (msg : string) (term : ascii) :
  let bufSize := to_ViUInt32 (Z.of_nat (String.length msg) + 1) in
  bytes (frame f msg term bufSize) bufSize =
  bytes (frame g msg term bufSize) bufSize.
Proof.
  intros bufSize. unfold bytes, frame.
  apply map_ext_in. intros i Hi. apply in_seq in Hi.
  assert (0 <= bufSize <= Z.of_nat (String.length msg) + 1) as Hb.
  { unfold bufSize, to_ViUInt32.
    pose proof (Z.mod_pos_bound (Z.of_nat (String.length msg) + 1) (2 ^ 32)).
    pose proof (Z.mod_le (Z.of_nat (String.length msg) + 1) (2 ^ 32)).
    lia. }
  assert (to_ViUInt32 (bufSize - 1) = bufSize - 1) as ->.
  { unfold to_ViUInt32. apply Z.mod_small.
    assert (bufSize < 2 ^ 32)
      by (unfold bufSize, to_ViUInt32; apply Z.mod_pos_bound; lia).
    lia. }
  destruct (Nat.eq_dec i (Z.to_nat (bufSize - 1))) as [->|Hne].
  - now rewrite !poke_same.
  - rewrite !poke_other by exact Hne.
    apply copy_string_inside. lia.
Qed.

(** ** The monad and processStatus *)

Section Laws.

Variable drv : Driver.

Lemma world_eta (w : World) : mkWorld (self w) (trace w) = w.
Proof. now destruct w. Qed.

Lemma set_lastError_same (o : VISADevice) :
  set_lastError_ (lastError_ o) o = o.
Proof. now destruct o. Qed.

Lemma errs_refl (w : World) : errs w w.
Proof.
  exists (lastError_ (self w)), [].
  rewrite set_lastError_same, app_nil_r, world_eta. now split.
Qed.

Lemma errs_trans (w1 w2 w3 : World) : errs w1 w2 -> errs w2 w3 -> errs w1 w3.
Proof.
  intros (e1 & l1 & -> & H1) (e2 & l2 & -> & H2).
  exists e2, (l1 ++ l2). cbn. rewrite app_assoc. split; [reflexivity|].
  rewrite forallb_app, H1, H2. reflexivity.
Qed.

Lemma errs_set_lastError (w : World) (err : string) :
  errs w (mkWorld (set_lastError_ err (self w)) (trace w)).
Proof. exists err, []. rewrite app_nil_r. now split. Qed.

Lemma errs_fields (w w' : World) :
  errs w w' ->
  session_ (self w') = session_ (self w) /\
  device_ (self w') = device_ (self w) /\
  initialized_ (self w') = initialized_ (self w) /\
  open_ (self w') = open_ (self w) /\
  closeCmd_ (self w') = closeCmd_ (self w) /\
  termChar_ (self w') = termChar_ (self w) /\
  timeout_ (self w') = timeout_ (self w).
Proof. intros (e & l & -> & _). cbn. repeat split. Qed.

Lemma call_eq (c : Call) (w : World) :
  call drv c w = (drv (trace w) c, record w c (drv (trace w) c)).
Proof. reflexivity. Qed.

Lemma processStatus_ok (status : ViStatus) (w : World) :
  VI_SUCCESS <= status -> processStatus drv status w = (true, w).
Proof.
  intros H. unfold processStatus.
  destruct (status <? VI_SUCCESS) eqn:E; [|reflexivity].
  apply Z.ltb_lt in E. lia.
Qed.

Lemma processStatus_fail (status : ViStatus) (w : World) :
  status < VI_SUCCESS ->
  fst (processStatus drv status w) = false /\
  errs w (snd (processStatus drv status w)).
Proof.
  intros H. unfold processStatus.
  apply Z.ltb_lt in H. rewrite H.
  unfold bind, this.
  destruct (open_ (self w) || initialized_ (self w)); cbn.
  - split; [reflexivity|].
    eexists _, [_]. split; reflexivity.
  - split; [reflexivity|]. apply errs_set_lastError.
Qed.

Lemma processStatus_errs (status : ViStatus) (w : World) :
  errs w (snd (processStatus drv status w)).
Proof.
  destruct (Z.lt_ge_cases status VI_SUCCESS) as [H|H].
  - now apply processStatus_fail.
  - rewrite processStatus_ok by exact H. apply errs_refl.
Qed.

Lemma processStatus_true (status : ViStatus) (w : World) :
  fst (processStatus drv status w) = true <-> VI_SUCCESS <= status.
Proof.
  split.
  - intros H. destruct (Z.lt_ge_cases status VI_SUCCESS) as [Hlt|Hge];
      [|exact Hge].
    apply (processStatus_fail _ w) in Hlt. destruct Hlt as [Hf _].
    congruence.
  - intros H. now rewrite processStatus_ok.
Qed.

Lemma processStatus_fail_eq (status : ViStatus) (w : World) :
  status < VI_SUCCESS ->
  processStatus drv status w =
  (false,
   let o := self w in
   if open_ o || initialized_ o then
     let c := viStatusDesc (if open_ o then device_ o else session_ o) status in
     mkWorld (set_lastError_ (description (drv (trace w) c)) o)
       (trace w ++ [(c, drv (trace w) c)])
   else
     mkWorld (set_lastError_ "Neither session nor device is initialized" o)
       (trace w)).
Proof.
  intros H. unfold processStatus. apply Z.ltb_lt in H. rewrite H.
  unfold bind, this. cbv zeta.
  destruct (open_ (self w) || initialized_ (self w)); reflexivity.
Qed.

Lemma processStatus_fail_error (status : ViStatus) (w : World) :
  status < VI_SUCCESS ->
  lastError_ (self (snd (processStatus drv status w))) = failure_text drv w status.
Proof.
  intros H. rewrite processStatus_fail_eq by exact H. unfold failure_text. cbv zeta.
  destruct (open_ (self w) || initialized_ (self w)); reflexivity.
Qed.

Lemma emitted_app (w : World) (o : VISADevice) (evs : list Event) :
  emitted w (mkWorld o (trace w ++ evs)) = evs.
Proof. unfold emitted. cbn. apply drop_app_length. Qed.

Lemma emitted_same (w : World) (o : VISADevice) :
  emitted w (mkWorld o (trace w)) = [].
Proof. unfold emitted. cbn. apply drop_all. Qed.

Lemma emitted_refl (w : World) : emitted w w = [].
Proof. unfold emitted. apply drop_all. Qed.

Lemma processStatus_no_write (status : ViStatus) (w : World) :
  forallb (fun e : Event => negb (is_viWrite (fst e)))
    (emitted w (snd (processStatus drv status w))) = true.
Proof.
  destruct (Z.lt_ge_cases status VI_SUCCESS) as [H|H].
  - rewrite processStatus_fail_eq by exact H. cbv zeta. cbn [snd].
    destruct (open_ (self w) || initialized_ (self w)).
    + now rewrite emitted_app.
    + now rewrite emitted_same.
  - rewrite processStatus_ok by exact H. cbn [snd].
    now rewrite emitted_refl.
Qed.

(** C5.  processStatus returns true exactly for the status codes at or above
    VI_SUCCESS, that is for the codes that are not negative, warnings
    (positive codes) included; and a call that returns true changes nothing:
    Last Error, the other fields and the trace of driver calls are as they
    were. *)
Theorem processStatus_threshold (status : ViStatus) (w : World) :
  (fst (processStatus drv status w) = true <-> VI_SUCCESS <= status) /\
  (fst (processStatus drv status w) = true <-> 0 <= status) /\
  (fst (processStatus drv status w) = false <-> status < 0) /\
  (fst (processStatus drv status w) = true ->
   processStatus drv status w = (true, w) /\
   lastError_ (self (snd (processStatus drv status w))) =
   lastError_ (self w)).
Proof.
  pose proof (processStatus_true status w) as Ht.
  split; [exact Ht|]. split; [exact Ht|]. split.
  - unfold VI_SUCCESS in Ht. split.
    + intros Hf. destruct (Z.lt_ge_cases status 0) as [Hlt|Hge];
        [exact Hlt|].
      apply Ht in Hge. congruence.
    + intros Hlt.
      apply not_true_is_false. intros E.
      apply Ht in E. lia.
  - intros H. apply Ht in H.
    rewrite processStatus_ok by exact H. split; reflexivity.
Qed.

(** C6.  getLastError returns the stored Last Error and clears it: a second
    call right after it returns the empty string, and so does a second call
    with a successful driver status in between.  When the last thing that
    happened is a failure, the first call returns the text of that failure
    and the next one the empty string. *)
Theorem getLastError_destructive (w : World) :
  fst (getLastError w) = lastError_ (self w) /\
  snd (getLastError w) =
    mkWorld (set_lastError_ EmptyString (self w)) (trace w) /\
  fst (getLastError (snd (getLastError w))) = EmptyString /\
  (forall status : ViStatus,
     VI_SUCCESS <= status ->
     fst (getLastError
            (snd (processStatus drv status (snd (getLastError w))))) =
     EmptyString) /\
  (forall status : ViStatus,
     status < VI_SUCCESS ->
     let w' := snd (processStatus drv status w) in
     fst (getLastError w') = failure_text drv w status /\
     fst (getLastError (snd (getLastError w'))) = EmptyString).
Proof.
  split; [reflexivity|]. split; [reflexivity|]. split; [reflexivity|].
  split.
  - intros status H. now rewrite processStatus_ok by exact H.
  - intros status H w'. split; [|reflexivity].
    unfold w'. cbn [getLastError bind this assign ret fst snd].
    apply processStatus_fail_error. exact H.
Qed.

(** ** write and query *)

Lemma errs_record (w : World) (c : Call) (r : Reply) :
  is_write_or_desc c = true -> errs w (record w c r).
Proof.
  intros H. exists (lastError_ (self w)), [(c, r)].
  rewrite set_lastError_same. split; [reflexivity|].
  cbn. now rewrite H.
Qed.

Lemma write_bytes_guard (buf : Buffer) (n : ViUInt32) (w : World) :
  initialized_ (self w) && open_ (self w) = false ->
  write_bytes drv buf n w = (false, w).
Proof. intros H. unfold write_bytes, bind, this. now rewrite H. Qed.

Lemma write_bytes_sends (buf : Buffer) (n : ViUInt32) (w : World) :
  initialized_ (self w) && open_ (self w) = true ->
  let c := viWrite (device_ (self w)) (bytes buf n) n in
  write_bytes drv buf n w =
  processStatus drv (r_status (drv (trace w) c)) (record w c (drv (trace w) c)).
Proof. intros H. unfold write_bytes, bind, this. now rewrite H. Qed.

Lemma write_bytes_errs (buf : Buffer) (n : ViUInt32) (w : World) :
  errs w (snd (write_bytes drv buf n w)).
Proof.
  destruct (initialized_ (self w) && open_ (self w)) eqn:E.
  - rewrite write_bytes_sends by exact E. cbv zeta.
    eapply errs_trans; [|apply processStatus_errs].
    now apply errs_record.
  - rewrite write_bytes_guard by exact E. apply errs_refl.
Qed.

Lemma write_unfold (msg : string) (w : World) :
  let bufSize := to_ViUInt32 (Z.of_nat (String.length msg) + 1) in
  write drv msg w =
  write_bytes drv (frame (fun _ => NUL) msg (termChar_ (self w)) bufSize)
    bufSize w.
Proof. reflexivity. Qed.

Lemma write_guard (msg : string) (w : World) :
  initialized_ (self w) && open_ (self w) = false ->
  write drv msg w = (false, w).
Proof. intros H. rewrite write_unfold. now apply write_bytes_guard. Qed.

Lemma write_errs (msg : string) (w : World) :
  errs w (snd (write drv msg w)).
Proof. rewrite write_unfold. apply write_bytes_errs. Qed.

(** The call [write] makes on an open device, for a message of any length:
    the count is the 32-bit cast of the length plus one. *)
Lemma write_sends (msg : string) (w : World) :
  initialized_ (self w) = true -> open_ (self w) = true ->
  let bufSize := to_ViUInt32 (Z.of_nat (String.length msg) + 1) in
  let buf := frame (fun _ => NUL) msg (termChar_ (self w)) bufSize in
  let c := viWrite (device_ (self w)) (bytes buf bufSize) bufSize in
  write drv msg w =
  processStatus drv (r_status (drv (trace w) c)) (record w c (drv (trace w) c)).
Proof.
  intros Hi Ho. rewrite write_unfold. cbv zeta.
  apply write_bytes_sends. now rewrite Hi, Ho.
Qed.

Lemma errs_emitted (w w' : World) :
  errs w w' ->
  forallb (fun e : Event => is_write_or_desc (fst e)) (emitted w w') = true.
Proof. intros (e & l & -> & H). now rewrite emitted_app. Qed.

Lemma read_guard (n : ViUInt32) (w : World) :
  initialized_ (self w) && open_ (self w) = false ->
  read drv n w = (EmptyString, w).
Proof. intros H. unfold read, bind, this. now rewrite H. Qed.

(** C4.  When the write inside query fails, query returns the empty string
    and ends in the very world the write left: among the calls it made
    there is no sleep and no viRead. *)
Theorem query_write_failure (msg : string) (w : World) :
  fst (write drv msg w) = false ->
  query drv msg w = (EmptyString, snd (write drv msg w)) /\
  forallb (fun e : Event => negb (is_sleep (fst e)) && negb (is_viRead (fst e)))
    (emitted w (snd (query drv msg w))) = true.
Proof.
  intros H.
  assert (query drv msg w = (EmptyString, snd (write drv msg w))) as Hq.
  { unfold query, bind. destruct (write drv msg w) as [b w'].
    cbn in H. subst b. reflexivity. }
  split; [exact Hq|].
  rewrite Hq. cbn [snd].
  pose proof (errs_emitted _ _ (write_errs msg w)) as He.
  revert He. generalize (emitted w (snd (write drv msg w))).
  intros l. induction l as [|[c r] l IH]; cbn; [reflexivity|].
  intros Hl. apply andb_true_iff in Hl. destruct Hl as [Hc Hl].
  rewrite (IH Hl). destruct c; cbn in Hc |- *; congruence.
Qed.

(** ** close and open *)

Lemma close_closed (w : World) :
  open_ (self w) = false -> close drv w = (true, w).
Proof.
  intros H. unfold close, bind, this. rewrite H. cbn. now rewrite H.
Qed.

Lemma close_command_errs (w : World) : errs w (snd (close_command drv w)).
Proof.
  unfold close_command, bind, this.
  destruct (negb _).
  - pose proof (write_errs (closeCmd_ (self w)) w) as Hw.
    destruct (write drv (closeCmd_ (self w)) w) as [sent w'].
    destruct sent; cbn in *; [exact Hw|].
    eapply errs_trans; [exact Hw|]. apply errs_set_lastError.
  - apply errs_refl.
Qed.

Lemma close_unfold (w : World) :
  open_ (self w) = true ->
  close drv w =
  let w1 := snd (close_command drv w) in
  let c := viClose (device_ (self w)) in
  let rc := drv (trace w1) c in
  let (ok, w2) := processStatus drv (r_status rc) (record w1 c rc) in
  if ok then (true, mkWorld (set_open_ false (self w2)) (trace w2))
  else (negb (open_ (self w2)), w2).
Proof.
  intros H. unfold close, close_command. unfold bind, this. rewrite H.
  destruct (negb _).
  - destruct (write drv (closeCmd_ (self w)) w) as [sent w'].
    destruct sent; cbn; unfold call; cbn; unfold record;
      destruct (processStatus drv _ _) as [[] ?]; reflexivity.
  - unfold call; cbn; unfold record.
    destruct (processStatus drv _ _) as [[] ?]; reflexivity.
Qed.

(** What close does on an open device: after the close command, one viClose
    of the device handle, whose status decides. *)
Lemma close_open (w : World) :
  open_ (self w) = true ->
  exists w1, errs w w1 /\
    let c := viClose (device_ (self w)) in
    let rc := drv (trace w1) c in
    (VI_SUCCESS <= r_status rc ->
     close drv w =
     (true, mkWorld (set_open_ false (self w1)) (trace w1 ++ [(c, rc)]))) /\
    (r_status rc < VI_SUCCESS ->
     fst (close drv w) = false /\ errs (record w1 c rc) (snd (close drv w))).
Proof.
  intros H. exists (snd (close_command drv w)).
  pose proof (close_command_errs w) as He.
  split; [exact He|]. cbv zeta. rewrite close_unfold by exact H. cbv zeta.
  set (w1 := snd (close_command drv w)) in *.
  set (c := viClose (device_ (self w))).
  set (rc := drv (trace w1) c).
  split.
  - intros Hok. rewrite processStatus_ok by exact Hok. reflexivity.
  - intros Hbad.
    destruct (processStatus_fail _ (record w1 c rc) Hbad) as [Hf Hs].
    destruct (processStatus drv (r_status rc) (record w1 c rc)) as [ok w2].
    cbn in Hf, Hs. subst ok. cbn. split; [|exact Hs].
    apply errs_fields in Hs. apply errs_fields in He.
    destruct Hs as (_ & _ & _ & Ho & _). destruct He as (_ & _ & _ & Ho' & _).
    rewrite Ho. cbn. rewrite Ho', H. reflexivity.
Qed.

(** close reports whether the device ended up not open. *)
Lemma close_result (w : World) :
  fst (close drv w) = negb (open_ (self (snd (close drv w)))).
Proof.
  destruct (open_ (self w)) eqn:H.
  - rewrite close_unfold by exact H. cbv zeta.
    destruct (processStatus drv _ _) as [[] w2]; reflexivity.
  - rewrite close_closed by exact H. cbn. now rewrite H.
Qed.

Lemma open_uninitialized (deviceStr : string) (accessMode : ViAccessMode)
    (timeout : ViUInt32) (w : World) :
  initialized_ (self w) = false ->
  open drv deviceStr accessMode timeout w =
  (false, mkWorld (set_timeout_ timeout (self w)) (trace w)).
Proof. intros H. unfold open, bind, this, assign. cbn. now rewrite H. Qed.

Lemma open_refused (deviceStr : string) (accessMode : ViAccessMode)
    (timeout : ViUInt32) (w : World) :
  initialized_ (self w) = true ->
  r_status (viOpen_reply drv w deviceStr accessMode timeout) < VI_SUCCESS ->
  fst (open drv deviceStr accessMode timeout w) = false /\
  open_ (self (snd (open drv deviceStr accessMode timeout w))) =
  open_ (self w).
Proof.
  intros Hi Hbad. unfold open, bind, this, assign, call.
  cbn -[close processStatus]. rewrite Hi.
  unfold viOpen_reply in Hbad.
  match goal with |- context [processStatus drv ?s ?x] =>
    destruct (processStatus_fail s x Hbad) as [Hf Hs];
    destruct (processStatus drv s x) as [ok w2] end.
  cbn in Hf, Hs. subst ok. cbn. split; [reflexivity|].
  apply errs_fields in Hs. destruct Hs as (_ & _ & _ & Ho & _).
  exact Ho.
Qed.

Lemma open_unfold (deviceStr : string) (accessMode : ViAccessMode)
    (timeout : ViUInt32) (w : World) :
  initialized_ (self w) = true ->
  VI_SUCCESS <= r_status (viOpen_reply drv w deviceStr accessMode timeout) ->
  open drv deviceStr accessMode timeout w =
  let r' := termchar_reply drv w deviceStr accessMode timeout in
  let (success, w') :=
    processStatus drv (r_status r')
      (after_termchar drv w deviceStr accessMode timeout) in
  if success then (true, w') else (false, snd (close drv w')).
Proof.
  intros Hi Hok. unfold open, bind, this, assign, call.
  cbn -[close processStatus]. rewrite Hi.
  unfold viOpen_reply in Hok.
  rewrite processStatus_ok by exact Hok. cbn -[close processStatus].
  unfold after_termchar, termchar_reply, viOpen_reply. cbv zeta.
  rewrite <- app_assoc. cbn [app].
  destruct (processStatus drv _ _) as [[] w']; cbn -[close];
    [reflexivity|].
  destruct (close drv w'); reflexivity.
Qed.

(** A successful open leaves the device open, with the handle and the
    terminator the driver replied. *)
Lemma open_succeeds (deviceStr : string) (accessMode : ViAccessMode)
    (timeout : ViUInt32) (w : World) :
  initialized_ (self w) = true ->
  VI_SUCCESS <= r_status (viOpen_reply drv w deviceStr accessMode timeout) ->
  VI_SUCCESS <=
    r_status (termchar_reply drv w deviceStr accessMode timeout) ->
  open drv deviceStr accessMode timeout w =
  (true, after_termchar drv w deviceStr accessMode timeout).
Proof.
  intros Hi H1 H2. rewrite open_unfold by assumption. cbv zeta.
  now rewrite processStatus_ok by exact H2.
Qed.

(** open returns true only that way. *)
Lemma open_true_inv (deviceStr : string) (accessMode : ViAccessMode)
    (timeout : ViUInt32) (w : World) :
  fst (open drv deviceStr accessMode timeout w) = true ->
  initialized_ (self w) = true /\
  VI_SUCCESS <= r_status (viOpen_reply drv w deviceStr accessMode timeout) /\
  VI_SUCCESS <=
    r_status (termchar_reply drv w deviceStr accessMode timeout).
Proof.
  intros H.
  destruct (initialized_ (self w)) eqn:Hi.
  2:{ rewrite open_uninitialized in H by exact Hi. discriminate. }
  destruct (Z.lt_ge_cases
    (r_status (viOpen_reply drv w deviceStr accessMode timeout)) VI_SUCCESS)
    as [H1|H1].
  { destruct (open_refused deviceStr accessMode timeout w Hi H1) as [Hf _].
    congruence. }
  destruct (Z.lt_ge_cases
    (r_status (termchar_reply drv w deviceStr accessMode timeout)) VI_SUCCESS)
    as [H2|H2]; [|now repeat split].
  rewrite open_unfold in H by assumption. cbv zeta in H.
  match type of H with context [processStatus drv ?s ?x] =>
    destruct (processStatus_fail s x H2) as [Hf _];
    destruct (processStatus drv s x) as [ok w2] end.
  cbn in Hf. subst ok. discriminate.
Qed.

Lemma errs_no_close (l : list Event) :
  forallb (fun e : Event => is_write_or_desc (fst e)) l = true ->
  forallb (fun e : Event => negb (is_viClose (fst e))) l = true.
Proof.
  induction l as [|[c r] l IH]; cbn; [reflexivity|].
  intros H. apply andb_true_iff in H. destruct H as [Hc Hl].
  rewrite (IH Hl). destruct c; cbn in Hc |- *; congruence.
Qed.

(** C2, as amended.  When viOpen succeeds and the fetch of the terminator
    fails, open returns false and closes the device again: it makes exactly
    one viClose call, on the handle viOpen gave, and the device ends up not
    open exactly when the status of that call is not a failure.  (When the
    driver refuses the viClose, open_ stays true.) *)
Theorem open_terminator_failure (deviceStr : string)
    (accessMode : ViAccessMode) (timeout : ViUInt32) (w : World) :
  initialized_ (self w) = true ->
  VI_SUCCESS <= r_status (viOpen_reply drv w deviceStr accessMode timeout) ->
  r_status (termchar_reply drv w deviceStr accessMode timeout) < VI_SUCCESS ->
  let w' := snd (open drv deviceStr accessMode timeout w) in
  let device := r_out (viOpen_reply drv w deviceStr accessMode timeout) in
  fst (open drv deviceStr accessMode timeout w) = false /\
  exists (pre : list Event) (rc : Reply) (post : list Event),
    emitted w w' = pre ++ (viClose device, rc) :: post /\
    forallb (fun e : Event => negb (is_viClose (fst e))) (pre ++ post) = true /\
    open_ (self w') = (r_status rc <? VI_SUCCESS).
Proof.
  intros Hi H1 H2 w' device. subst w'.
  rewrite open_unfold by assumption. cbv zeta.
  set (wD := after_termchar drv w deviceStr accessMode timeout).
  destruct (processStatus_fail _ wD H2) as [Hf He].
  destruct (processStatus drv _ wD) as [ok wE]. cbn [fst snd] in Hf, He.
  subst ok. cbn [fst snd]. split; [reflexivity|].
  destruct He as (err & l1 & -> & Hl1).
  set (wE := mkWorld _ _).
  assert (open_ (self wE) = true) as Ho by reflexivity.
  assert (device_ (self wE) = device) as Hd by reflexivity.
  destruct (close_open wE Ho)
    as (w1 & (err1 & l2 & Hw1 & Hl2) & Hok & Hbad).
  cbv zeta in Hok, Hbad. rewrite Hd in Hok, Hbad.
  assert (open_ (self w1) = true) as Ho1 by (rewrite Hw1; reflexivity).
  set (rc := drv (trace w1) (viClose device)) in *.
  set (pre :=
    [(viOpen (session_ (self w)) deviceStr accessMode timeout,
      viOpen_reply drv w deviceStr accessMode timeout);
     (viGetAttribute device VI_ATTR_TERMCHAR,
      termchar_reply drv w deviceStr accessMode timeout)] ++ l1 ++ l2).
  assert (trace w1 = trace w ++ pre) as Ht.
  { rewrite Hw1. unfold pre, wE, wD, after_termchar. cbn [trace self].
    now rewrite <- !app_assoc. }
  assert (forallb (fun e : Event => negb (is_viClose (fst e))) pre = true) as Hpre.
  { unfold pre. cbn [app forallb fst is_viClose negb andb].
    rewrite forallb_app, !errs_no_close by assumption. reflexivity. }
  destruct (Z.lt_ge_cases (r_status rc) VI_SUCCESS) as [Hc|Hc].
  - destruct (Hbad Hc) as [_ (err3 & l3 & Hw3 & Hl3)].
    exists pre, rc, l3. rewrite Hw3. cbn [self trace record].
    rewrite Ht. rewrite <- !app_assoc. rewrite emitted_app.
    split; [reflexivity|]. split.
    + rewrite forallb_app, Hpre, errs_no_close by assumption. reflexivity.
    + cbn [self record open_ set_lastError_]. rewrite Ho1.
      symmetry. now apply Z.ltb_lt.
  - rewrite (Hok Hc). cbn [snd self trace].
    exists pre, rc, []. rewrite Ht, <- app_assoc, emitted_app.
    split; [reflexivity|]. split.
    + now rewrite app_nil_r.
    + cbn [self open_ set_open_]. symmetry. apply Z.ltb_ge. exact Hc.
Qed.

(** On an open device close makes exactly one viClose call, on the device
    handle, and returns true exactly when its status is not a failure. *)
Lemma close_open_trace (w : World) :
  open_ (self w) = true ->
  exists (pre : list Event) (rc : Reply) (post : list Event),
    emitted w (snd (close drv w)) =
      pre ++ (viClose (device_ (self w)), rc) :: post /\
    forallb (fun e : Event => negb (is_viClose (fst e))) (pre ++ post) = true /\
    fst (close drv w) = (VI_SUCCESS <=? r_status rc).
Proof.
  intros Ho.
  destruct (close_open w Ho) as (w1 & (err1 & l1 & Hw1 & Hl1) & Hok & Hbad).
  cbv zeta in Hok, Hbad.
  set (rc := drv (trace w1) (viClose (device_ (self w)))) in *.
  assert (trace w1 = trace w ++ l1) as Ht by (rewrite Hw1; reflexivity).
  destruct (Z.lt_ge_cases (r_status rc) VI_SUCCESS) as [Hc|Hc].
  - destruct (Hbad Hc) as [Hf (err3 & l3 & Hw3 & Hl3)].
    exists l1, rc, l3. rewrite Hw3, Hf. cbn [self trace record].
    rewrite Ht, <- !app_assoc, emitted_app.
    split; [reflexivity|]. split.
    + rewrite forallb_app, !errs_no_close by assumption. reflexivity.
    + symmetry. apply Z.leb_gt. exact Hc.
  - rewrite (Hok Hc). cbn [fst snd].
    exists l1, rc, []. rewrite Ht, <- app_assoc, emitted_app.
    split; [reflexivity|]. split.
    + rewrite app_nil_r. now apply errs_no_close.
    + symmetry. apply Z.leb_le. exact Hc.
Qed.

(** C8, as amended.  Whenever the device is not open, close returns true,
    makes no driver call and changes nothing.  In particular, once a close
    has returned true, after a successful open or in any other state, the
    next two calls of close return true and leave the world as it is.  The
    close that follows a successful open finds the device open, makes one
    viClose call on the device handle, and returns true exactly when the
    status of that call is not a failure.  After any close the device is
    open exactly when close returned false: a refused viClose leaves it
    open. *)
Theorem close_idempotent_once_closed (w : World) :
  (open_ (self w) = false -> close drv w = (true, w)) /\
  (fst (close drv w) = true ->
   let w' := snd (close drv w) in
   close drv w' = (true, w') /\
   close drv (snd (close drv w')) = (true, w')) /\
  (forall (deviceStr : string) (accessMode : ViAccessMode)
     (timeout : ViUInt32) (w0 : World),
     fst (open drv deviceStr accessMode timeout w0) = true ->
     w = snd (open drv deviceStr accessMode timeout w0) ->
     open_ (self w) = true /\
     exists (pre : list Event) (rc : Reply) (post : list Event),
       emitted w (snd (close drv w)) =
         pre ++ (viClose (device_ (self w)), rc) :: post /\
       forallb (fun e : Event => negb (is_viClose (fst e))) (pre ++ post)
         = true /\
       fst (close drv w) = (VI_SUCCESS <=? r_status rc)) /\
  open_ (self (snd (close drv w))) = negb (fst (close drv w)).
Proof.
  split; [apply close_closed|]. split; [|split].
  3:{ rewrite close_result. now rewrite negb_involutive. }
  - intros H w'.
    assert (open_ (self w') = false) as Hc.
    { unfold w'. rewrite close_result in H.
      now apply negb_true_iff in H. }
    rewrite (close_closed w' Hc). cbn [snd].
    split; [reflexivity|]. apply close_closed. exact Hc.
  - intros deviceStr accessMode timeout w0 Hopen ->.
    destruct (open_true_inv _ _ _ _ Hopen) as (Hi & H1 & H2).
    assert (open_ (self (snd (open drv deviceStr accessMode timeout w0)))
            = true) as Ho.
    { now rewrite open_succeeds by assumption. }
    split; [exact Ho|]. apply close_open_trace. exact Ho.
Qed.

(** Framing, where write stays within its array.  On an initialized
    session with an open device, and for a message whose length plus one
    fits the 32-bit count of the driver, write makes exactly one viWrite
    call: on the device handle, with the
    characters of the message followed by the stored terminator and nothing
    else, and with the count len(msg)+1.  The stored terminator is the one
    fetched at open time: when the world was reached by a successful open,
    it is the byte the driver replied for VI_ATTR_TERMCHAR. *)
Theorem write_frames_message (msg : string) (w : World) :
  initialized_ (self w) = true -> open_ (self w) = true ->
  Z.of_nat (String.length msg) + 1 < 2 ^ 32 ->
  let sent := list_ascii_of_string msg ++ [termChar_ (self w)] in
  let c :=
    viWrite (device_ (self w)) sent (Z.of_nat (String.length msg) + 1) in
  Z.of_nat (length sent) = Z.of_nat (String.length msg) + 1 /\
  (exists rest : list Event,
     emitted w (snd (write drv msg w)) = (c, drv (trace w) c) :: rest /\
     forallb (fun e : Event => negb (is_viWrite (fst e))) rest = true) /\
  (forall (deviceStr : string) (accessMode : ViAccessMode)
     (timeout : ViUInt32) (w0 : World),
     fst (open drv deviceStr accessMode timeout w0) = true ->
     w = snd (open drv deviceStr accessMode timeout w0) ->
     termChar_ (self w) =
     to_ViUInt8 (r_out (termchar_reply drv w0 deviceStr accessMode timeout))).
Proof.
  intros Hi Ho Hfit sent c. split; [|split].
  3:{ intros deviceStr accessMode timeout w0 Hopen ->.
      destruct (open_true_inv _ _ _ _ Hopen) as (Hi0 & H1 & H2).
      now rewrite open_succeeds by assumption. }
  { unfold sent. rewrite length_app. cbn [length].
    assert (forall s, length (list_ascii_of_string s) = String.length s) as E.
    { induction s as [|a s IH]; cbn; [reflexivity|now rewrite IH]. }
    rewrite E. lia. }
  rewrite write_sends by assumption. cbv zeta.
  destruct (bytes_frame (fun _ => NUL) msg (termChar_ (self w)) Hfit)
    as [Hsize Hbytes].
  rewrite Hbytes. rewrite !Hsize. fold sent. fold c.
  set (r := drv (trace w) c).
  pose proof (processStatus_no_write (r_status r) (record w c r)) as Hn.
  pose proof (processStatus_errs (r_status r) (record w c r)) as He.
  destruct (processStatus drv (r_status r) (record w c r)) as [ok w2].
  cbn [snd] in *. destruct He as (err & evs & -> & _).
  rewrite emitted_app in Hn.
  exists evs. split; [|exact Hn].
  unfold record. cbn [self trace]. rewrite <- app_assoc. now rewrite emitted_app.
Qed.

(** ** The guards of the operations on an open device *)

Lemma setAttribute_guard (attribute : ViAttr) (state : ViAttrState) (w : World) :
  open_ (self w) = false -> setAttribute drv attribute state w = (false, w).
Proof. intros H. unfold setAttribute, bind, this. now rewrite H. Qed.

Lemma getScalarAttribute_guard (attribute : ViAttr) (ptr : Z) (w : World) :
  open_ (self w) = false ->
  getScalarAttribute drv attribute ptr w = ((false, ptr), w).
Proof. intros H. unfold getScalarAttribute, bind, this. now rewrite H. Qed.

Lemma getStringAttribute_guard (attribute : ViAttr) (w : World) :
  open_ (self w) = false ->
  getStringAttribute drv attribute w = (EmptyString, w).
Proof. intros H. unfold getStringAttribute, bind, this. now rewrite H. Qed.

Lemma getDeviceDescription_guard (w : World) :
  open_ (self w) = false -> getDeviceDescription drv w = (EmptyString, w).
Proof. intros H. unfold getDeviceDescription, bind, this. now rewrite H. Qed.

Lemma query_guard (msg : string) (w : World) :
  initialized_ (self w) && open_ (self w) = false ->
  query drv msg w = (EmptyString, w).
Proof.
  intros H. unfold query, bind. now rewrite write_guard by exact H.
Qed.

(** The guards as they are written.  write, read, query, setAttribute,
    getScalarAttribute, getStringAttribute and getDeviceDescription, called
    while the device is not open, return their failure value (false, the
    empty string; the value at the pointer of getScalarAttribute stays) and
    leave the world as it is: no driver call is made and Last Error is
    unchanged.  write, read and query do the same whenever the session is
    not initialized; the attribute operations test open_ alone. *)
Theorem short_circuit_when_not_open (w : World) :
  (open_ (self w) = false ->
   (forall msg : string, write drv msg w = (false, w)) /\
   (forall bufSize : ViUInt32, read drv bufSize w = (EmptyString, w)) /\
   (forall msg : string, query drv msg w = (EmptyString, w)) /\
   (forall (attribute : ViAttr) (state : ViAttrState),
      setAttribute drv attribute state w = (false, w)) /\
   (forall (attribute : ViAttr) (ptr : Z),
      getScalarAttribute drv attribute ptr w = ((false, ptr), w)) /\
   (forall attribute : ViAttr,
      getStringAttribute drv attribute w = (EmptyString, w)) /\
   getDeviceDescription drv w = (EmptyString, w)) /\
  (initialized_ (self w) = false ->
   (forall msg : string, write drv msg w = (false, w)) /\
   (forall bufSize : ViUInt32, read drv bufSize w = (EmptyString, w)) /\
   (forall msg : string, query drv msg w = (EmptyString, w))).
Proof.
  split.
  - intros H.
    assert (initialized_ (self w) && open_ (self w) = false) as Hg
      by (rewrite H; apply andb_false_r).
    repeat split; intros.
    + now apply write_guard.
    + now apply read_guard.
    + now apply query_guard.
    + now apply setAttribute_guard.
    + now apply getScalarAttribute_guard.
    + now apply getStringAttribute_guard.
    + now apply getDeviceDescription_guard.
  - intros H.
    assert (initialized_ (self w) && open_ (self w) = false) as Hg
      by (rewrite H; reflexivity).
    repeat split; intros.
    + now apply write_guard.
    + now apply read_guard.
    + now apply query_guard.
Qed.

(** The short circuit on every state that keeps the class invariant.  When
    a device is open only on an initialized session, each of the seven
    operations, called while the device is not open or the session is not
    initialized, returns its failure value and leaves the world as it is:
    no driver call, Last Error unchanged. *)
Lemma short_circuit_under_invariant (w : World) :
  open_implies_initialized w ->
  open_ (self w) = false \/ initialized_ (self w) = false ->
  (forall msg : string, write drv msg w = (false, w)) /\
  (forall bufSize : ViUInt32, read drv bufSize w = (EmptyString, w)) /\
  (forall msg : string, query drv msg w = (EmptyString, w)) /\
  (forall (attribute : ViAttr) (state : ViAttrState),
     setAttribute drv attribute state w = (false, w)) /\
  (forall (attribute : ViAttr) (ptr : Z),
     getScalarAttribute drv attribute ptr w = ((false, ptr), w)) /\
  (forall attribute : ViAttr,
     getStringAttribute drv attribute w = (EmptyString, w)) /\
  getDeviceDescription drv w = (EmptyString, w).
Proof.
  intros Hinv Hclosed.
  assert (open_ (self w) = false) as Ho.
  { destruct Hclosed as [H|H]; [exact H|].
    destruct (open_ (self w)) eqn:E; [|reflexivity].
    rewrite (Hinv E) in H. discriminate. }
  assert (initialized_ (self w) && open_ (self w) = false) as Hg
    by (rewrite Ho; apply andb_false_r).
  repeat split; intros.
  - now apply write_guard.
  - now apply read_guard.
  - now apply query_guard.
  - now apply setAttribute_guard.
  - now apply getScalarAttribute_guard.
  - now apply getStringAttribute_guard.
  - now apply getDeviceDescription_guard.
Qed.

(** ** getStringAttribute *)

Lemma getStringAttribute_open (attribute : ViAttr) (w : World) :
  open_ (self w) = true ->
  let c := viGetAttribute (device_ (self w)) attribute in
  let r := drv (trace w) c in
  getStringAttribute drv attribute w =
  (string_z (poke (r_buf r) (ATTR_MAX_LENGTH - 1) NUL) 0 ATTR_MAX_LENGTH,
   snd (processStatus drv (r_status r) (record w c r))).
Proof.
  intros H. unfold getStringAttribute, bind, this. rewrite H.
  unfold call. cbv zeta. unfold record.
  destruct (processStatus drv _ _); reflexivity.
Qed.

(** ** findInstruments *)

Lemma truncated_no_NUL (r : Reply) :
  has_NUL (truncated r) = false /\
  (String.length (truncated r) < VI_FIND_BUFLEN)%nat.
Proof.
  split; [apply string_z_no_NUL|].
  unfold truncated, VI_FIND_BUFLEN. apply string_z_length_lt. apply poke_same.
Qed.

Lemma findNext_loop_S (findList : ViSession) (n k : nat) (l : list string)
    (w : World) :
  findNext_loop drv findList (S n) k l w =
  let c := viFindNext findList in
  let r := drv (trace w) c in
  let (ok, w2) := processStatus drv (r_status r) (record w c r) in
  if ok then findNext_loop drv findList n (S k) (<[k:=truncated r]> l) w2
  else (l, w2).
Proof.
  cbn [findNext_loop]. unfold bind, call. cbv zeta. unfold record.
  destruct (processStatus drv _ _) as [[] w2]; reflexivity.
Qed.

Lemma findInstruments_found (expr : string) (w : World) :
  initialized_ (self w) = true ->
  let c := viFindRsrc (session_ (self w)) expr in
  let r := drv (trace w) c in
  VI_SUCCESS <= r_status r ->
  findInstruments drv expr w =
  findNext_loop drv (r_out r) (Z.to_nat (r_count r) - 1) 1
    (<[0%nat:=string_n (r_buf r) 0 VI_FIND_BUFLEN]>
       (replicate (Z.to_nat (r_count r)) EmptyString))
    (record w c r).
Proof.
  intros Hi c r Hok. unfold findInstruments, bind, this. rewrite Hi.
  rewrite call_eq. fold c r. now rewrite processStatus_ok by exact Hok.
Qed.

(** The loop keeps the length of the vector and the elements below [k]; an
    element it changes is the truncation of a buffer viFindNext filled. *)
Lemma findNext_loop_spec (findList : ViSession) (n : nat) :
  forall (k : nat) (l : list string) (w : World),
    let res := findNext_loop drv findList n k l w in
    length (fst res) = length l /\
    exists evs : list Event,
      trace (snd res) = trace w ++ evs /\
      forall (j : nat) (s : string),
        fst res !! j = Some s ->
        l !! j = Some s \/
        ((k <= j)%nat /\
         exists rk : Reply, In (viFindNext findList, rk) evs /\ s = truncated rk).
Proof.
  induction n as [|n IH]; intros k l w res; subst res.
  - cbn. split; [reflexivity|]. exists []. rewrite app_nil_r.
    split; [reflexivity|]. intros j s H. now left.
  - rewrite findNext_loop_S. cbv zeta.
    set (c := viFindNext findList). set (r := drv (trace w) c).
    destruct (Z.lt_ge_cases (r_status r) VI_SUCCESS) as [Hbad|Hok].
    + destruct (processStatus_fail _ (record w c r) Hbad) as [Hf He].
      destruct (processStatus drv (r_status r) (record w c r)) as [ok w2].
      cbn [fst snd] in Hf, He. subst ok. cbn [ret fst snd].
      split; [reflexivity|].
      destruct He as (err & evs & -> & _). cbn [trace record].
      exists ([(c, r)] ++ evs). rewrite app_assoc.
      split; [reflexivity|]. intros j s H. now left.
    + rewrite processStatus_ok by exact Hok.
      specialize (IH (S k) (<[k:=truncated r]> l) (record w c r)).
      cbv zeta in IH. destruct IH as (Hlen & evs & Ht & Hel).
      split; [now rewrite Hlen, length_insert|].
      exists ([(c, r)] ++ evs). split.
      { rewrite Ht. cbn [trace record]. now rewrite app_assoc. }
      intros j s H. destruct (Hel j s H) as [Hl|(Hk & rk & Hin & ->)].
      * apply list_lookup_insert_Some in Hl.
        destruct Hl as [(-> & <- & _)|(_ & Hl)]; [|now left].
        right. split; [lia|]. exists r. split; [now left|reflexivity].
      * right. split; [lia|]. exists rk. split; [now right|reflexivity].
Qed.

(** The characters of the two string constructors, place by place. *)
Lemma string_n_get (buf : Buffer) (n : nat) :
  forall from i : nat,
    (i < n)%nat ->
    String.get i (string_n buf from n) = Some (buf (from + i)%nat).
Proof.
  induction n as [|n IH]; intros from i Hi; [lia|].
  cbn [string_n]. destruct i as [|i].
  - cbn. now rewrite Nat.add_0_r.
  - cbn [String.get]. rewrite IH by lia. f_equal. f_equal. lia.
Qed.

Lemma string_z_get (buf : Buffer) (fuel : nat) :
  forall from i : nat,
    (i < String.length (string_z buf from fuel))%nat ->
    String.get i (string_z buf from fuel) = Some (buf (from + i)%nat) /\
    buf (from + i)%nat <> NUL.
Proof.
  induction fuel as [|fuel IH]; intros from i Hi; [cbn in Hi; lia|].
  cbn [string_z] in *.
  destruct (Ascii.eqb (buf from) NUL) eqn:E; [cbn in Hi; lia|].
  destruct i as [|i].
  - cbn. rewrite Nat.add_0_r. split; [reflexivity|].
    now apply Ascii.eqb_neq.
  - cbn [String.get String.length] in *.
    destruct (IH (S from) i) as [Hg Hn]; [lia|].
    replace (from + S i)%nat with (S from + i)%nat by lia. now split.
Qed.

Lemma string_z_stop (buf : Buffer) (fuel : nat) :
  forall from : nat,
    (String.length (string_z buf from fuel) < fuel)%nat ->
    buf (from + String.length (string_z buf from fuel))%nat = NUL.
Proof.
  induction fuel as [|fuel IH]; intros from H; [lia|].
  cbn [string_z] in *.
  destruct (Ascii.eqb (buf from) NUL) eqn:E.
  - cbn. rewrite Nat.add_0_r. now apply Ascii.eqb_eq.
  - cbn [String.length] in *.
    replace (from + S (String.length (string_z buf (S from) fuel)))%nat
      with (S from + String.length (string_z buf (S from) fuel))%nat by lia.
    apply IH. lia.
Qed.

(** An element built from a viFindNext buffer is that buffer up to its
    first NUL, or its first VI_FIND_BUFLEN-1 characters when none of them
    is NUL. *)
Lemma truncated_chars (r : Reply) :
  (forall i : nat,
     (i < String.length (truncated r))%nat ->
     String.get i (truncated r) = Some (r_buf r i) /\ r_buf r i <> NUL) /\
  ((String.length (truncated r) < VI_FIND_BUFLEN - 1)%nat ->
   r_buf r (String.length (truncated r)) = NUL).
Proof.
  destruct (truncated_no_NUL r) as [_ Hlt].
  split.
  - intros i Hi.
    destruct (string_z_get (poke (r_buf r) (VI_FIND_BUFLEN - 1) NUL)
                VI_FIND_BUFLEN 0 i Hi) as [Hg Hn].
    cbn [Nat.add] in Hg, Hn.
    rewrite poke_other in Hg, Hn by lia. now split.
  - intros Hshort.
    pose proof (string_z_stop (poke (r_buf r) (VI_FIND_BUFLEN - 1) NUL)
                  VI_FIND_BUFLEN 0 Hlt) as Hs.
    cbn [Nat.add] in Hs. fold (truncated r) in Hs.
    now rewrite poke_other in Hs by lia.
Qed.

(** C9.  When the session is initialized and viFindRsrc succeeds with
    retSize > 0, the vector returned has retSize elements.  Its first
    element is the whole discovery buffer: exactly VI_FIND_BUFLEN
    characters, each the byte of the buffer at its place, the NUL that ends
    the identifier and whatever follows it included.  Every later element
    is shorter than VI_FIND_BUFLEN and cut at the first NUL: it is either
    the empty string the resize put there (the loop stopped before it) or
    the bytes of the buffer of a viFindNext call up to, and without, its
    first NUL. *)
Theorem findInstruments_first_fixed_rest_truncated (expr : string) (w : World) :
  initialized_ (self w) = true ->
  let r := drv (trace w) (viFindRsrc (session_ (self w)) expr) in
  VI_SUCCESS <= r_status r ->
  0 < r_count r ->
  let found := fst (findInstruments drv expr w) in
  let evs := emitted w (snd (findInstruments drv expr w)) in
  length found = Z.to_nat (r_count r) /\
  (exists first : string,
     found !! 0%nat = Some first /\
     String.length first = VI_FIND_BUFLEN /\
     forall i : nat,
       (i < VI_FIND_BUFLEN)%nat -> String.get i first = Some (r_buf r i)) /\
  (forall (k : nat) (s : string),
     (0 < k)%nat -> found !! k = Some s ->
     has_NUL s = false /\
     (String.length s < VI_FIND_BUFLEN)%nat /\
     (s = EmptyString \/
      exists rk : Reply,
        In (viFindNext (r_out r), rk) evs /\
        (forall i : nat,
           (i < String.length s)%nat ->
           String.get i s = Some (r_buf rk i) /\ r_buf rk i <> NUL) /\
        ((String.length s < VI_FIND_BUFLEN - 1)%nat ->
         r_buf rk (String.length s) = NUL))).
Proof.
  intros Hi r Hok Hpos found evs. subst found evs.
  rewrite (findInstruments_found expr w Hi Hok).
  set (c := viFindRsrc (session_ (self w)) expr) in *.
  change (drv (trace w) c) with r.
  set (n := Z.to_nat (r_count r)).
  set (first := string_n (r_buf r) 0 VI_FIND_BUFLEN).
  set (l0 := <[0%nat:=first]> (replicate n EmptyString)).
  pose proof (findNext_loop_spec (r_out r) (n - 1) 1 l0 (record w c r)) as HS.
  cbv zeta in HS. destruct HS as (Hlen & evs & Ht & Hel).
  assert (length l0 = n) as Hl0
    by (unfold l0; now rewrite length_insert, length_replicate).
  assert (forall (j : nat) (s : string), l0 !! j = Some s ->
            (j = 0%nat /\ s = first) \/ (j <> 0%nat /\ s = EmptyString)) as Hl0el.
  { intros j s H. unfold l0 in H. apply list_lookup_insert_Some in H.
    destruct H as [(<- & <- & _)|(Hne & H)]; [now left|].
    right. split; [congruence|]. apply lookup_replicate in H. now destruct H. }
  assert (emitted w (snd (findNext_loop drv (r_out r) (n - 1) 1 l0
                            (record w c r))) = (c, r) :: evs) as Hem.
  { unfold emitted. rewrite Ht. cbn [trace record].
    rewrite <- app_assoc. apply drop_app_length. }
  rewrite Hem. split; [now rewrite Hlen|]. split.
  - assert (0 < n)%nat as Hn by (unfold n; lia).
    assert (is_Some (fst (findNext_loop drv (r_out r) (n - 1) 1 l0
                            (record w c r)) !! 0%nat)) as [s Hs].
    { apply lookup_lt_is_Some. rewrite Hlen, Hl0. exact Hn. }
    exists s. split; [exact Hs|].
    destruct (Hel _ _ Hs) as [H|(Hk & _)]; [|lia].
    destruct (Hl0el _ _ H) as [(_ & ->)|(Hne & _)]; [|congruence].
    split; [apply string_n_length|].
    intros i Hlt. unfold first. now rewrite string_n_get by exact Hlt.
  - intros k s Hk Hs. destruct (Hel _ _ Hs) as [H|(_ & rk & Hin & ->)].
    + destruct (Hl0el _ _ H) as [(-> & _)|(_ & ->)]; [lia|].
      split; [reflexivity|]. split; [unfold VI_FIND_BUFLEN; cbn; lia|].
      now left.
    + destruct (truncated_no_NUL rk) as [Hn Hlt].
      destruct (truncated_chars rk) as [Hch Hstop].
      split; [exact Hn|]. split; [exact Hlt|].
      right. exists rk. split; [now right|]. split; [exact Hch|exact Hstop].
Qed.
End Laws.

(** C10.  On an open device getStringAttribute returns the contents of its
    buffer up to the first NUL (the last place of the buffer is set to NUL
    first), whatever the status of viGetAttribute: two drivers that leave
    the same bytes in the buffer give the same string, one failing and one
    succeeding.  The failure shows only in Last Error, which a failing call
    overwrites and a successful one leaves alone. *)
Theorem getStringAttribute_ignores_status (drv : Driver) (attribute : ViAttr)
    (w : World) :
  open_ (self w) = true ->
  let c := viGetAttribute (device_ (self w)) attribute in
  let r := drv (trace w) c in
  let text :=
    string_z (poke (r_buf r) (ATTR_MAX_LENGTH - 1) NUL) 0 ATTR_MAX_LENGTH in
  fst (getStringAttribute drv attribute w) = text /\
  has_NUL text = false /\
  (String.length text < ATTR_MAX_LENGTH)%nat /\
  (forall drv' : Driver,
     r_buf (drv' (trace w) c) = r_buf r ->
     fst (getStringAttribute drv' attribute w) = text) /\
  (r_status r < VI_SUCCESS ->
   lastError_ (self (snd (getStringAttribute drv attribute w))) =
   failure_text drv (record w c r) (r_status r)) /\
  (VI_SUCCESS <= r_status r ->
   lastError_ (self (snd (getStringAttribute drv attribute w))) =
   lastError_ (self w)).
Proof.
  intros H c r text.
  rewrite (getStringAttribute_open drv attribute w H). cbv zeta. fold c r.
  cbn [fst snd]. split; [reflexivity|]. split; [apply string_z_no_NUL|].
  split.
  { unfold text, ATTR_MAX_LENGTH. apply string_z_length_lt.
    apply poke_same. }
  split.
  { intros drv' Hbuf.
    rewrite (getStringAttribute_open drv' attribute w H). cbv zeta.
    cbn [fst]. fold c. rewrite Hbuf. reflexivity. }
  split.
  - intros Hbad. now apply processStatus_fail_error.
  - intros Hok. now rewrite processStatus_ok by exact Hok.
Qed.

(** ** The constructor *)

Lemma ctor_failure (drv : Driver) (storage : VISADevice) :
  r_status (drv [] viOpenDefaultRM) < VI_SUCCESS ->
  initialized_ (self (constructed drv storage)) = initialized_ storage /\
  open_ (self (constructed drv storage)) = open_ storage.
Proof.
  intros H. unfold constructed, VISADevice_ctor, bind, assign, call.
  cbn -[processStatus].
  match goal with |- context [processStatus drv ?s ?x] =>
    destruct (processStatus_fail drv s x H) as [Hf He];
    destruct (processStatus drv s x) as [ok w2] end.
  cbn [fst snd] in Hf, He. subst ok. cbn [snd ret].
  apply errs_fields in He. destruct He as (_ & _ & Hi & Ho & _).
  rewrite Hi, Ho. split; reflexivity.
Qed.

Lemma ctor_success (drv : Driver) (storage : VISADevice) :
  VI_SUCCESS <= r_status (drv [] viOpenDefaultRM) ->
  initialized_ (self (constructed drv storage)) = true /\
  open_ (self (constructed drv storage)) = open_ storage.
Proof.
  intros H. unfold constructed, VISADevice_ctor, bind, assign, call.
  cbn -[processStatus]. rewrite processStatus_ok by exact H.
  split; reflexivity.
Qed.

(** C1.  The constructor names closeCmd_ and lastError_ in its initialiser
    list and assigns initialized_ only when viOpenDefaultRM succeeds; on
    failure the flag keeps what the storage held ([ctor_failure]).  Run on
    storage whose initialized_ byte is set, with a driver that refuses the
    session, the constructed object reports isInitialized() = true, and a
    later open goes to the driver and returns true. *)
Theorem ctor_failure_stale_initialized :
  let drv := mock is_viOpenDefaultRM in
  let w := constructed drv stale_initialized in
  r_status (drv [] viOpenDefaultRM) = VI_ERROR_SYSTEM_ERROR /\
  fst (isInitialized w) = true /\
  fst (open drv usb VI_NO_LOCK 2000 w) = true /\
  map fst (emitted w (snd (open drv usb VI_NO_LOCK 2000 w))) =
    [viOpen 1 usb VI_NO_LOCK 2000; viGetAttribute 2 VI_ATTR_TERMCHAR].
Proof. vm_compute. repeat split. Qed.

(** ** The statements at concrete drivers *)

Lemma open_terminator_failure_witness :
  let drv := mock is_viGetAttribute in
  let w := constructed drv zeroed in
  fst (open drv usb VI_NO_LOCK 2000 w) = false /\
  fst (isOpen (snd (open drv usb VI_NO_LOCK 2000 w))) = false.
Proof.
  intros drv w.
  destruct (open_terminator_failure drv usb VI_NO_LOCK 2000 w)
    as (Hf & pre & rc & post & Hem & Hnc & Ho).
  - reflexivity.
  - vm_compute. discriminate.
  - reflexivity.
  - split; [exact Hf|]. reflexivity.
Defined.

(** C2 as stated fails when the driver also refuses the viClose: open
    returns false and the device is left open. *)
Lemma terminator_failure_left_open :
  let drv := mock (fun c => is_viGetAttribute c || is_viClose c) in
  let w := constructed drv zeroed in
  fst (isInitialized w) = true /\
  r_status (viOpen_reply drv w usb VI_NO_LOCK 2000) = VI_SUCCESS /\
  r_status (termchar_reply drv w usb VI_NO_LOCK 2000) = VI_ERROR_SYSTEM_ERROR /\
  fst (open drv usb VI_NO_LOCK 2000 w) = false /\
  fst (isOpen (snd (open drv usb VI_NO_LOCK 2000 w))) = true.
Proof. vm_compute. repeat split. Qed.

Lemma write_frames_message_witness :
  let drv := mock never in
  let w := opened drv in
  hd_error (map fst (emitted w (snd (write drv "VOLT 1.5" w)))) =
  Some (viWrite 2 (list_ascii_of_string "VOLT 1.5" ++ ["010"%char]) 9).
Proof.
  intros drv w.
  destruct (write_frames_message drv "VOLT 1.5" w)
    as (_ & (rest & Hem & _) & _).
  - reflexivity.
  - reflexivity.
  - reflexivity.
  - rewrite Hem. reflexivity.
Defined.

Lemma huge_message_length :
  Z.of_nat (String.length huge_message) + 1 = 2 ^ 32.
Proof.
  unfold huge_message. rewrite string_n_length.
  rewrite Z2Nat.id by (apply Z.leb_le; reflexivity).
  reflexivity.
Qed.

(** Every store of write falls inside its array exactly when the length of
    the message plus one fits 32 bits. *)
Lemma within_array_iff (msg : string) :
  within_array msg = true <-> Z.of_nat (String.length msg) + 1 < 2 ^ 32.
Proof.
  unfold within_array, terminator_place, write_bufSize, to_ViUInt32.
  set (n := Z.of_nat (String.length msg)).
  assert (0 <= n) as Hn by (unfold n; lia).
  pose proof (Z.mod_pos_bound (n + 1) (2 ^ 32) ltac:(lia)) as Hb.
  rewrite andb_true_iff, Z.leb_le, Z.ltb_lt. split.
  - intros [Hle _].
    destruct (Z_lt_ge_dec (n + 1) (2 ^ 32)) as [H|H]; [exact H|].
    pose proof (Z.mod_le (n + 1) (2 ^ 32) ltac:(lia) ltac:(lia)) as Hm.
    assert ((n + 1) mod 2 ^ 32 = n + 1 - 2 ^ 32 * ((n + 1) / 2 ^ 32)) as E
      by (rewrite Z.mod_eq by lia; reflexivity).
    assert (1 <= (n + 1) / 2 ^ 32) as Hq
      by (apply Z.div_le_lower_bound; lia).
    lia.
  - intros H. rewrite (Z.mod_small (n + 1)) by lia.
    replace (n + 1 - 1) with n by lia.
    rewrite Z.mod_small by lia. lia.
Qed.

(** C3.  write computes the size of its array in 32 bits.  For a message
    of 2^32 - 1 characters, which a std::string of a 64-bit build can
    hold, the size wraps to 0: new ViByte[0] has no element, std::copy
    stores the first character of the message at place 0 and goes on for
    2^32 - 1 places, and the terminator is stored at place 2^32 - 1.  No
    store of write falls inside the array, so the program has left defined
    behaviour before it reaches viWrite, and no buffer of len(msg)+1 bytes
    is passed. *)
Theorem write_overruns_allocation :
  Z.of_nat (String.length huge_message) = 2 ^ 32 - 1 /\
  write_bufSize huge_message = 0 /\
  terminator_place huge_message = 2 ^ 32 - 1 /\
  within_array huge_message = false /\
  frame (fun _ => NUL) huge_message "010"%char
    (write_bufSize huge_message) 0%nat = "a"%char.
Proof.
  assert (write_bufSize huge_message = 0) as Hsize.
  { unfold write_bufSize, to_ViUInt32. rewrite huge_message_length.
    reflexivity. }
  assert (terminator_place huge_message = 2 ^ 32 - 1) as Hterm.
  { unfold terminator_place. rewrite Hsize. reflexivity. }
  split; [pose proof huge_message_length; lia|].
  split; [exact Hsize|]. split; [exact Hterm|]. split.
  - unfold within_array. rewrite Hterm, Hsize. apply andb_false_r.
  - unfold frame. rewrite Hsize.
    change (to_ViUInt32 (0 - 1)) with 4294967295.
    rewrite poke_other by lia.
    unfold huge_message.
    remember (Z.to_nat (2 ^ 32 - 1)) as n eqn:En.
    destruct n as [|n]; [lia|].
    cbn [string_n copy_string].
    rewrite copy_string_below by lia. apply poke_same.
Qed.

Lemma query_write_failure_witness :
  let drv := mock is_viWrite in
  let w := opened drv in
  fst (write drv "VOLT?" w) = false /\
  fst (query drv "VOLT?" w) = EmptyString /\
  map fst (emitted w (snd (query drv "VOLT?" w))) =
    [viWrite 2 (list_ascii_of_string "VOLT?" ++ ["010"%char]) 6;
     viStatusDesc 2 VI_ERROR_SYSTEM_ERROR].
Proof.
  intros drv w.
  assert (fst (write drv "VOLT?" w) = false) as Hw by reflexivity.
  destruct (query_write_failure drv "VOLT?" w Hw) as [Hq _].
  split; [exact Hw|]. rewrite Hq. split; reflexivity.
Defined.

Lemma processStatus_threshold_witness :
  let drv := mock never in
  let w := opened drv in
  fst (processStatus drv 1 w) = true /\
  processStatus drv 1 w = (true, w) /\
  fst (processStatus drv VI_ERROR_SYSTEM_ERROR w) = false.
Proof.
  intros drv w.
  destruct (processStatus_threshold drv 1 w) as (_ & _ & _ & H).
  assert (fst (processStatus drv 1 w) = true) as Ht by reflexivity.
  destruct (H Ht) as [Heq _].
  split; [exact Ht|]. split; [exact Heq|]. reflexivity.
Defined.

Lemma getLastError_destructive_witness :
  let drv := mock never in
  let w := snd (processStatus drv VI_ERROR_SYSTEM_ERROR (opened drv)) in
  fst (getLastError w) = "System error"%string /\
  fst (getLastError (snd (getLastError w))) = EmptyString.
Proof.
  intros drv w.
  destruct (getLastError_destructive drv (opened drv)) as (_ & _ & _ & _ & H).
  assert (VI_ERROR_SYSTEM_ERROR < VI_SUCCESS) as Hlt by reflexivity.
  destruct (H VI_ERROR_SYSTEM_ERROR Hlt) as [H1 H2].
  split; [etransitivity; [exact H1|reflexivity]|exact H2].
Defined.

Lemma short_circuit_when_not_open_witness :
  let drv := mock never in
  let w := constructed drv zeroed in
  fst (isOpen w) = false /\
  setAttribute drv VI_ATTR_TERMCHAR 10 w = (false, w) /\
  query drv "VOLT?" w = (EmptyString, w).
Proof.
  intros drv w.
  assert (open_ (self w) = false) as Ho by reflexivity.
  destruct (short_circuit_when_not_open drv w) as [H _].
  destruct (H Ho) as (_ & _ & Hq & Hs & _).
  split; [reflexivity|]. split; [apply Hs|apply Hq].
Defined.

(** C7.  The attribute operations test open_ alone, and the constructor
    never initialises open_ (nor initialized_).  An object constructed on
    storage whose open_ byte is set, with a driver that refuses the session,
    is neither initialized nor opened by any call, yet isOpen() is true and
    setAttribute, getScalarAttribute, getStringAttribute and
    getDeviceDescription each call the driver, on the device handle the
    storage held, and return what it replies; write, read and query, which
    test both flags, fail without a call.  On every state where a device
    is open only on an initialized session the seven operations all
    short-circuit ([short_circuit_under_invariant]). *)
Theorem setAttribute_without_session :
  let drv := mock is_viOpenDefaultRM in
  let w := constructed drv stale_open in
  r_status (drv [] viOpenDefaultRM) = VI_ERROR_SYSTEM_ERROR /\
  fst (isInitialized w) = false /\
  fst (isOpen w) = true /\
  fst (setAttribute drv VI_ATTR_TERMCHAR 10 w) = true /\
  map fst (emitted w (snd (setAttribute drv VI_ATTR_TERMCHAR 10 w))) =
    [viSetAttribute 0 VI_ATTR_TERMCHAR 10] /\
  fst (getScalarAttribute drv VI_ATTR_TERMCHAR 0 w) = (true, 10) /\
  map fst (emitted w (snd (getScalarAttribute drv VI_ATTR_TERMCHAR 0 w))) =
    [viGetAttribute 0 VI_ATTR_TERMCHAR] /\
  fst (getStringAttribute drv VI_ATTR_MANF_NAME w) = "B&K Precision"%string /\
  map fst (emitted w (snd (getStringAttribute drv VI_ATTR_MANF_NAME w))) =
    [viGetAttribute 0 VI_ATTR_MANF_NAME] /\
  map fst (emitted w (snd (getDeviceDescription drv w))) =
    [viGetAttribute 0 VI_ATTR_MANF_NAME; viGetAttribute 0 VI_ATTR_MODEL_NAME;
     viGetAttribute 0 VI_ATTR_INTF_INST_NAME] /\
  write drv "VOLT?" w = (false, w) /\
  read drv 1024 w = (EmptyString, w) /\
  query drv "VOLT?" w = (EmptyString, w).
Proof. vm_compute. repeat split. Qed.

Lemma close_idempotent_once_closed_witness :
  let drv := mock never in
  let w := opened drv in
  fst (close drv w) = true /\
  fst (close drv (snd (close drv w))) = true /\
  snd (close drv (snd (close drv w))) = snd (close drv w).
Proof.
  intros drv w.
  assert (fst (close drv w) = true) as Hc by reflexivity.
  destruct (close_idempotent_once_closed drv w) as (_ & H & _).
  destruct (H Hc) as [H1 _].
  split; [exact Hc|]. rewrite H1. split; reflexivity.
Defined.

(** C8 as stated fails when the driver refuses the viClose: after a
    successful open, close returns false, twice, and the device stays
    open. *)
Lemma close_refused_after_open :
  let drv := mock is_viClose in
  let w0 := constructed drv zeroed in
  let w := snd (open drv usb VI_NO_LOCK 2000 w0) in
  fst (open drv usb VI_NO_LOCK 2000 w0) = true /\
  fst (close drv w) = false /\
  fst (close drv (snd (close drv w))) = false /\
  fst (isOpen (snd (close drv (snd (close drv w))))) = true.
Proof. vm_compute. repeat split. Qed.

Lemma findInstruments_first_fixed_rest_truncated_witness :
  let drv := stale_finder in
  let w := constructed drv zeroed in
  let found := fst (findInstruments drv "USB?*" w) in
  length found = 2%nat /\
  exists first : string,
    found !! 0%nat = Some first /\
    String.length first = 256%nat /\
    String.get 0 first = Some "U"%char /\
    String.get 26 first = Some "R"%char /\
    String.get 27 first = Some NUL /\
    String.get 28 first = Some "A"%char /\
    String.get 39 first = Some "R"%char /\
    String.get 40 first = Some NUL /\
    String.get 255 first = Some NUL /\
    found !! 1%nat = Some "USB0::0xFFFF::0x9131::INSTR"%string.
Proof.
  intros drv w found.
  destruct (findInstruments_first_fixed_rest_truncated drv "USB?*" w)
    as (Hn & (first & H0 & Hlen & Hget) & _).
  - reflexivity.
  - apply Z.leb_le. reflexivity.
  - reflexivity.
  - split; [exact Hn|].
    exists first. split; [exact H0|]. split; [exact Hlen|].
    repeat (split;
      [rewrite Hget by (apply Nat.ltb_lt; reflexivity); reflexivity|]).
    vm_compute. reflexivity.
Defined.

Lemma getStringAttribute_ignores_status_witness :
  let w := opened (mock never) in
  fst (getStringAttribute (mock is_viGetAttribute) VI_ATTR_MANF_NAME w) =
    "B&K Precision"%string /\
  fst (getStringAttribute (mock never) VI_ATTR_MANF_NAME w) =
    "B&K Precision"%string.
Proof.
  intros w.
  destruct (getStringAttribute_ignores_status (mock is_viGetAttribute)
              VI_ATTR_MANF_NAME w) as (H1 & _ & _ & H2 & _).
  - reflexivity.
  - split.
    + rewrite H1. vm_compute. reflexivity.
    + rewrite (H2 (mock never)) by reflexivity. vm_compute. reflexivity.
Defined.

(** Scenarios of the specification, run on the model. *)

Example join_two_commands :
  join ["A"; "B"] (";" +:+ String "010"%char EmptyString) =
  "A;" +:+ String "010"%char "B".
Proof. reflexivity. Qed.

Example write_list_is_one_transaction :
  let drv := mock never in
  let w := opened drv in
  map fst (emitted w (snd (write_list drv ["A"; "B"] w))) =
  [viWrite 2 ["A"; ";"; "010"; "B"; "010"]%char 5].
Proof. vm_compute. reflexivity. Qed.

Example close_sends_the_close_command :
  let drv := mock never in
  let w := snd (onClose_list ["OFF"] (opened drv)) in
  fst (close drv w) = true /\
  map fst (emitted w (snd (close drv w))) =
  [viWrite 2 ["O"; "F"; "F"; "010"]%char 4; viClose 2].
Proof. vm_compute. split; reflexivity. Qed.

Example query_writes_sleeps_reads :
  let drv := mock never in
  let w := opened drv in
  fst (query drv "VOLT?" w) = "1.50"%string /\
  map fst (emitted w (snd (query drv "VOLT?" w))) =
  [viWrite 2 ["V"; "O"; "L"; "T"; "?"; "010"]%char 6;
   sleep_for 2000; viRead 2 1024].
Proof. vm_compute. split; reflexivity. Qed.

Example failed_open_scenario :
  let drv := mock is_viOpen in
  let w := snd (open drv "FAKE::INVALID" VI_NO_LOCK 2000 (constructed drv zeroed)) in
  fst (isOpen w) = false /\ fst (getLastError w) = "System error"%string.
Proof. vm_compute. split; reflexivity. Qed.

Example findInstruments_failure_is_empty :
  let drv := mock is_viFindRsrc in
  fst (findInstruments drv "USB?*" (constructed drv zeroed)) = [].
Proof. reflexivity. Qed.

(** * Further properties *)

(** ** join *)

Lemma append_cons (c : ascii) (s t : string) :
  String c s +:+ t = String c (s +:+ t).
Proof. reflexivity. Qed.

Lemma append_nil_r (s : string) : s +:+ EmptyString = s.
Proof.
  induction s as [|c s IH]; [reflexivity|].
  now rewrite append_cons, IH.
Qed.

Lemma append_assoc (s t u : string) : (s +:+ t) +:+ u = s +:+ (t +:+ u).
Proof.
  induction s as [|c s IH]; [reflexivity|].
  now rewrite !append_cons, IH.
Qed.

Lemma append_length (s t : string) :
  String.length (s +:+ t) = (String.length s + String.length t)%nat.
Proof.
  induction s as [|c s IH]; [reflexivity|].
  rewrite append_cons. cbn [String.length]. now rewrite IH.
Qed.

Lemma join_loop_sep (l : list string) (sep result : string) :
  join_loop l sep true result =
  match l with
  | [] => result
  | _ :: _ => result +:+ sep +:+ String.concat sep l
  end.
Proof.
  revert result; induction l as [|x l IH]; intros result; [reflexivity|].
  cbn [join_loop]. rewrite IH. destruct l as [|y l].
  - cbn. now rewrite append_assoc.
  - change (String.concat sep (x :: y :: l))
      with (x +:+ sep +:+ String.concat sep (y :: l)).
    now rewrite !append_assoc.
Qed.

Lemma concat_length (sep : string) (l : list string) :
  String.length (String.concat sep l) =
  (total_length l + (length l - 1) * String.length sep)%nat.
Proof.
  induction l as [|x l IH]; [reflexivity|].
  destruct l as [|y l].
  - cbn. lia.
  - change (String.concat sep (x :: y :: l))
      with (x +:+ sep +:+ String.concat sep (y :: l)).
    rewrite !append_length, IH. cbn [total_length fold_right length]. lia.
Qed.

(** X1.  join puts the separator between consecutive elements and nowhere
    else: it is String.concat of the standard library, so the empty list
    gives the empty string, one element gives that element, and nothing
    follows the last element.  Its length is the sum of the lengths of the
    elements plus one separator for every element but the first. *)
Theorem join_is_concat (l : list string) (sep : string) :
  join l sep = String.concat sep l /\
  String.length (join l sep) =
  (total_length l + (length l - 1) * String.length sep)%nat.
Proof.
  assert (join l sep = String.concat sep l) as E.
  { unfold join. destruct l as [|x l]; [reflexivity|].
    cbn [join_loop]. rewrite join_loop_sep. destruct l; reflexivity. }
  split; [exact E|]. rewrite E. apply concat_length.
Qed.

Section MoreLaws.

Variable drv : Driver.

(** ** Operations that touch Last Error only *)

Lemma error_only_refl (w : World) : error_only w w.
Proof.
  exists (lastError_ (self w)), [].
  now rewrite set_lastError_same, app_nil_r, world_eta.
Qed.

Lemma error_only_trans (w1 w2 w3 : World) :
  error_only w1 w2 -> error_only w2 w3 -> error_only w1 w3.
Proof.
  intros (e1 & l1 & ->) (e2 & l2 & ->).
  exists e2, (l1 ++ l2). cbn. now rewrite app_assoc.
Qed.

Lemma errs_error_only (w w' : World) : errs w w' -> error_only w w'.
Proof. intros (e & l & -> & _). now exists e, l. Qed.

Lemma error_only_record (w : World) (c : Call) (r : Reply) :
  error_only w (record w c r).
Proof.
  exists (lastError_ (self w)), [(c, r)]. now rewrite set_lastError_same.
Qed.

Lemma error_only_fields (w w' : World) :
  error_only w w' -> keeps_session w w'.
Proof. intros (e & l & ->). unfold keeps_session. cbn. repeat split. now exists l. Qed.

Lemma processStatus_error_only (status : ViStatus) (w : World) :
  error_only w (snd (processStatus drv status w)).
Proof. apply errs_error_only, processStatus_errs. Qed.

(** A call followed by processStatus on its status. *)
Lemma call_processStatus_error_only (c : Call) (w : World) :
  let r := drv (trace w) c in
  error_only w (snd (processStatus drv (r_status r) (record w c r))).
Proof.
  intros r. eapply error_only_trans; [apply error_only_record|].
  apply processStatus_error_only.
Qed.

Lemma write_error_only (msg : string) (w : World) :
  error_only w (snd (write drv msg w)).
Proof. apply errs_error_only, write_errs. Qed.

Lemma read_unfold (bufSize : ViUInt32) (w : World) :
  initialized_ (self w) && open_ (self w) = true ->
  let c := viRead (device_ (self w)) bufSize in
  let r := drv (trace w) c in
  read drv bufSize w =
  (if fst (processStatus drv (r_status r) (record w c r))
   then string_n (r_buf r) 0 (Z.to_nat (r_count r)) else EmptyString,
   snd (processStatus drv (r_status r) (record w c r))).
Proof.
  intros H. unfold read, bind, this. rewrite H. unfold call. cbv zeta.
  unfold record. destruct (processStatus drv _ _) as [[] w2]; reflexivity.
Qed.

Lemma read_error_only (bufSize : ViUInt32) (w : World) :
  error_only w (snd (read drv bufSize w)).
Proof.
  destruct (initialized_ (self w) && open_ (self w)) eqn:E.
  - rewrite read_unfold by exact E. cbv zeta. cbn [snd].
    apply call_processStatus_error_only.
  - rewrite read_guard by exact E. apply error_only_refl.
Qed.

Lemma query_unfold (msg : string) (w : World) :
  fst (write drv msg w) = true ->
  let w1 := snd (write drv msg w) in
  let c := sleep_for (timeout_ (self w1)) in
  query drv msg w =
  read drv read_default_bufSize (record w1 c (drv (trace w1) c)).
Proof.
  intros H. unfold query, bind. destruct (write drv msg w) as [b w1].
  cbn in H. subst b. reflexivity.
Qed.

Lemma query_unfold_failed (msg : string) (w : World) :
  fst (write drv msg w) = false ->
  query drv msg w = (EmptyString, snd (write drv msg w)).
Proof.
  intros H. unfold query, bind. destruct (write drv msg w) as [b w1].
  cbn in H. subst b. reflexivity.
Qed.

Lemma query_error_only (msg : string) (w : World) :
  error_only w (snd (query drv msg w)).
Proof.
  destruct (fst (write drv msg w)) eqn:E.
  - rewrite query_unfold by exact E. cbv zeta.
    eapply error_only_trans; [apply write_error_only|].
    eapply error_only_trans; [apply error_only_record|].
    apply read_error_only.
  - rewrite query_unfold_failed by exact E. apply write_error_only.
Qed.

Lemma setAttribute_error_only (attribute : ViAttr) (state : ViAttrState)
    (w : World) :
  error_only w (snd (setAttribute drv attribute state w)).
Proof.
  unfold setAttribute, bind, this. destruct (open_ (self w)).
  - rewrite call_eq. apply call_processStatus_error_only.
  - apply error_only_refl.
Qed.

Lemma getScalarAttribute_error_only (attribute : ViAttr) (ptr : Z)
    (w : World) :
  error_only w (snd (getScalarAttribute drv attribute ptr w)).
Proof.
  unfold getScalarAttribute, bind, this. destruct (open_ (self w)).
  - rewrite call_eq.
    pose proof (call_processStatus_error_only
                  (viGetAttribute (device_ (self w)) attribute) w) as H.
    cbv zeta in H. destruct (processStatus drv _ _) as [b w2]. exact H.
  - apply error_only_refl.
Qed.

Lemma getStringAttribute_error_only (attribute : ViAttr) (w : World) :
  error_only w (snd (getStringAttribute drv attribute w)).
Proof.
  destruct (open_ (self w)) eqn:E.
  - rewrite getStringAttribute_open by exact E. cbv zeta. cbn [snd].
    apply call_processStatus_error_only.
  - rewrite getStringAttribute_guard by exact E. apply error_only_refl.
Qed.

Lemma getDeviceDescription_error_only (w : World) :
  error_only w (snd (getDeviceDescription drv w)).
Proof.
  unfold getDeviceDescription, bind, this. destruct (open_ (self w)).
  - pose proof (getStringAttribute_error_only VI_ATTR_MANF_NAME w) as H1.
    destruct (getStringAttribute drv VI_ATTR_MANF_NAME w) as [s1 w1].
    pose proof (getStringAttribute_error_only VI_ATTR_MODEL_NAME w1) as H2.
    destruct (getStringAttribute drv VI_ATTR_MODEL_NAME w1) as [s2 w2].
    pose proof (getStringAttribute_error_only VI_ATTR_INTF_INST_NAME w2)
      as H3.
    destruct (getStringAttribute drv VI_ATTR_INTF_INST_NAME w2) as [s3 w3].
    cbn [fst snd ret] in *.
    eapply error_only_trans; [exact H1|].
    eapply error_only_trans; [exact H2|exact H3].
  - apply error_only_refl.
Qed.

Lemma findNext_loop_error_only (findList : ViSession) (n : nat) :
  forall (k : nat) (l : list string) (w : World),
    error_only w (snd (findNext_loop drv findList n k l w)).
Proof.
  induction n as [|n IH]; intros k l w; [apply error_only_refl|].
  rewrite findNext_loop_S. cbv zeta.
  pose proof (call_processStatus_error_only (viFindNext findList) w) as H.
  cbv zeta in H. destruct (processStatus drv _ _) as [[] w2]; cbn [snd] in H.
  - eapply error_only_trans; [exact H|apply IH].
  - exact H.
Qed.

Lemma findInstruments_error_only (expr : string) (w : World) :
  error_only w (snd (findInstruments drv expr w)).
Proof.
  unfold findInstruments, bind, this. destruct (initialized_ (self w)).
  - rewrite call_eq.
    pose proof (call_processStatus_error_only
                  (viFindRsrc (session_ (self w)) expr) w) as H.
    cbv zeta in H. destruct (processStatus drv _ _) as [[] w2]; cbn [snd] in H.
    + eapply error_only_trans; [exact H|apply findNext_loop_error_only].
    + exact H.
  - apply error_only_refl.
Qed.

Lemma write_list_unfold (l : list string) (w : World) :
  write_list drv l w =
  write drv (join l (";" +:+ String (termChar_ (self w)) EmptyString)) w.
Proof. reflexivity. Qed.

Lemma getLastError_error_only (w : World) :
  error_only w (snd (getLastError w)).
Proof. exists EmptyString, []. cbn. now rewrite app_nil_r. Qed.

(** X10.  write (both overloads), read, query, setAttribute,
    getScalarAttribute, getStringAttribute, getDeviceDescription,
    findInstruments and getLastError never change the handles, the two
    flags, the close command, the terminator or the timeout, and never
    remove a call from the trace: Last Error is the only field they
    write. *)
Theorem operations_keep_the_session (w : World) :
  (forall msg : string, keeps_session w (snd (write drv msg w))) /\
  (forall l : list string, keeps_session w (snd (write_list drv l w))) /\
  (forall bufSize : ViUInt32, keeps_session w (snd (read drv bufSize w))) /\
  (forall msg : string, keeps_session w (snd (query drv msg w))) /\
  (forall (attribute : ViAttr) (state : ViAttrState),
     keeps_session w (snd (setAttribute drv attribute state w))) /\
  (forall (attribute : ViAttr) (ptr : Z),
     keeps_session w (snd (getScalarAttribute drv attribute ptr w))) /\
  (forall attribute : ViAttr,
     keeps_session w (snd (getStringAttribute drv attribute w))) /\
  keeps_session w (snd (getDeviceDescription drv w)) /\
  (forall expr : string, keeps_session w (snd (findInstruments drv expr w))) /\
  keeps_session w (snd (getLastError w)).
Proof.
  repeat split_and; intros; apply error_only_fields.
  - apply write_error_only.
  - rewrite write_list_unfold. apply write_error_only.
  - apply read_error_only.
  - apply query_error_only.
  - apply setAttribute_error_only.
  - apply getScalarAttribute_error_only.
  - apply getStringAttribute_error_only.
  - apply getDeviceDescription_error_only.
  - apply findInstruments_error_only.
  - apply getLastError_error_only.
Qed.

(** ** Lifecycle *)

(** close changes the object in open_ and Last Error at most, and never
    sets open_. *)
Lemma close_frame (w : World) :
  let w' := snd (close drv w) in
  session_ (self w') = session_ (self w) /\
  device_ (self w') = device_ (self w) /\
  initialized_ (self w') = initialized_ (self w) /\
  closeCmd_ (self w') = closeCmd_ (self w) /\
  termChar_ (self w') = termChar_ (self w) /\
  timeout_ (self w') = timeout_ (self w) /\
  (open_ (self w') = true -> open_ (self w) = true) /\
  exists evs : list Event, trace w' = trace w ++ evs.
Proof.
  intros w'. subst w'. destruct (open_ (self w)) eqn:Ho.
  - rewrite close_unfold by exact Ho. cbv zeta.
    pose proof (errs_error_only _ _ (close_command_errs drv w)) as H1.
    set (w1 := snd (close_command drv w)) in *.
    pose proof (call_processStatus_error_only
                  (viClose (device_ (self w))) w1) as H2.
    cbv zeta in H2.
    destruct (processStatus drv _ _) as [ok w2]. cbn [snd] in H2.
    pose proof (error_only_fields _ _ (error_only_trans _ _ _ H1 H2))
      as (Hs & Hd & Hi & _ & Hc & Ht & Hto & evs & Hev).
    destruct ok; cbn [snd self trace set_open_ session_ device_ initialized_
                      closeCmd_ termChar_ timeout_ open_];
      repeat split; try assumption; try reflexivity; now exists evs.
  - rewrite close_closed by exact Ho. cbn [snd]. rewrite Ho.
    repeat split; try reflexivity; try discriminate.
    exists []. now rewrite app_nil_r.
Qed.

Lemma open_frame (deviceStr : string) (accessMode : ViAccessMode)
    (timeout : ViUInt32) (w : World) :
  let w' := snd (open drv deviceStr accessMode timeout w) in
  timeout_ (self w') = timeout /\
  session_ (self w') = session_ (self w) /\
  initialized_ (self w') = initialized_ (self w) /\
  closeCmd_ (self w') = closeCmd_ (self w).
Proof.
  intros w'. subst w'.
  destruct (initialized_ (self w)) eqn:Hi.
  2:{ rewrite open_uninitialized by exact Hi. cbn. now rewrite Hi. }
  destruct (Z.lt_ge_cases
    (r_status (viOpen_reply drv w deviceStr accessMode timeout)) VI_SUCCESS)
    as [H1|H1].
  - unfold open, bind, this, assign, call.
    cbn -[close processStatus]. rewrite Hi.
    match goal with |- context [processStatus drv ?s ?x] =>
      pose proof (error_only_fields _ _ (processStatus_error_only s x))
        as (Hs & _ & Hin & _ & Hc & _ & Hto & _);
      destruct (processStatus_fail drv s x H1) as [Hf _];
      destruct (processStatus drv s x) as [ok w2] end.
    cbn [fst snd] in *. subst ok. cbn [snd ret].
    rewrite Hto, Hs, Hin, Hc. cbn. now rewrite Hi.
  - rewrite open_unfold by assumption. cbv zeta.
    set (wD := after_termchar drv w deviceStr accessMode timeout).
    pose proof (error_only_fields _ _ (processStatus_error_only
      (r_status (termchar_reply drv w deviceStr accessMode timeout)) wD))
      as (Hs & _ & Hin & _ & Hc & _ & Hto & _).
    destruct (processStatus drv _ wD) as [ok wE]. cbn [snd] in *.
    destruct ok; cbn [snd].
    + rewrite Hto, Hs, Hin, Hc. cbn. now rewrite Hi.
    + destruct (close_frame wE) as (Hs' & _ & Hin' & Hc' & _ & Hto' & _).
      rewrite Hto', Hs', Hin', Hc', Hto, Hs, Hin, Hc. cbn. now rewrite Hi.
Qed.

Lemma dtor_unfold (w : World) :
  initialized_ (self w) = true ->
  VISADevice_dtor drv w =
  let w1 := if open_ (self w) then snd (close drv w) else w in
  if open_ (self w1) then (tt, w1)
  else
    let c := viClose (session_ (self w1)) in
    let r := drv (trace w1) c in
    let (ok, w2) := processStatus drv (r_status r) (record w1 c r) in
    if ok then (tt, mkWorld (set_initialized_ false (self w2)) (trace w2))
    else (tt, w2).
Proof.
  intros Hi. unfold VISADevice_dtor. unfold bind at 1. unfold this at 1.
  rewrite Hi. unfold bind at 1.
  destruct (open_ (self w)) eqn:Ho.
  - unfold bind at 1. destruct (close drv w) as [b w1]. cbn [ret snd].
    unfold bind, this. destruct (open_ (self w1)); cbn [negb]; [reflexivity|].
    rewrite call_eq. cbv zeta.
    destruct (processStatus drv _ _) as [[] w2]; reflexivity.
  - cbn [ret]. unfold bind, this. rewrite Ho. cbn [negb].
    rewrite call_eq. cbv zeta.
    destruct (processStatus drv _ _) as [[] w2]; reflexivity.
Qed.


Lemma dtor_guard (w : World) :
  initialized_ (self w) = false -> VISADevice_dtor drv w = (tt, w).
Proof. intros H. unfold VISADevice_dtor, bind, this. now rewrite H. Qed.

Lemma processStatus_described (status : ViStatus) (w : World) :
  described w (snd (processStatus drv status w)).
Proof.
  destruct (Z.lt_ge_cases status VI_SUCCESS) as [H|H].
  - rewrite processStatus_fail_eq by exact H. cbv zeta. cbn [snd].
    destruct (open_ (self w) || initialized_ (self w)).
    + eexists _, [_]. split; reflexivity.
    + eexists _, []. rewrite app_nil_r. split; reflexivity.
  - rewrite processStatus_ok by exact H. cbn [snd].
    exists (lastError_ (self w)), [].
    now rewrite set_lastError_same, app_nil_r, world_eta.
Qed.

Lemma described_error_only (w w' : World) : described w w' -> error_only w w'.
Proof. intros (e & l & -> & _). now exists e, l. Qed.

Lemma length_list_ascii_of_string (s : string) :
  length (list_ascii_of_string s) = String.length s.
Proof. induction s as [|a s IH]; cbn; [reflexivity|now rewrite IH]. Qed.

(** The one call of [write] on an open device, for a message that fits. *)
Lemma write_one_call (msg : string) (w : World) :
  initialized_ (self w) = true -> open_ (self w) = true ->
  Z.of_nat (String.length msg) + 1 < 2 ^ 32 ->
  let c :=
    viWrite (device_ (self w))
      (list_ascii_of_string msg ++ [termChar_ (self w)])
      (Z.of_nat (String.length msg) + 1) in
  let r := drv (trace w) c in
  write drv msg w = processStatus drv (r_status r) (record w c r).
Proof.
  intros Hi Ho Hfit c r. rewrite write_sends by assumption. cbv zeta.
  destruct (bytes_frame (fun _ => NUL) msg (termChar_ (self w)) Hfit)
    as [Hsize Hbytes].
  rewrite Hbytes, !Hsize. reflexivity.
Qed.

Lemma described_record_emitted (w : World) (c : Call) (r : Reply)
    (w' : World) :
  described (record w c r) w' ->
  exists rest : list Event,
    trace w' = trace w ++ (c, r) :: rest /\
    forallb (fun e : Event => is_viStatusDesc (fst e)) rest = true /\
    keeps_session w w'.
Proof.
  intros H. pose proof (error_only_fields _ _
    (error_only_trans _ _ _ (error_only_record w c r)
       (described_error_only _ _ H))) as Hk.
  destruct H as (e & l & -> & Hl).
  exists l. split; [|split; [exact Hl|exact Hk]].
  cbn [record self trace]. now rewrite <- app_assoc.
Qed.

Lemma emitted_of_trace (w w' : World) (evs : list Event) :
  trace w' = trace w ++ evs -> emitted w w' = evs.
Proof. intros H. unfold emitted. rewrite H. apply drop_app_length. Qed.

Lemma processStatus_fst (status : ViStatus) (w : World) :
  fst (processStatus drv status w) = (VI_SUCCESS <=? status).
Proof.
  destruct (Z.lt_ge_cases status VI_SUCCESS) as [H|H].
  - destruct (processStatus_fail drv status w H) as [Hf _]. rewrite Hf.
    symmetry. now apply Z.leb_gt.
  - rewrite processStatus_ok by exact H. symmetry. now apply Z.leb_le.
Qed.


(** X3.  A failing processStatus stores a text free of NUL and
    shorter than ERROR_MSG_MAX in Last Error and changes no other field.
    The text is the description the driver gives, asked with one
    viStatusDesc call on the device handle when the device is open and on
    the session handle otherwise; when neither flag is set the text is
    fixed and no driver call is made. *)
Theorem processStatus_failure_text (status : ViStatus) (w : World) :
  status < VI_SUCCESS ->
  let w' := snd (processStatus drv status w) in
  let handle := if open_ (self w) then device_ (self w) else session_ (self w) in
  lastError_ (self w') = failure_text drv w status /\
  has_NUL (lastError_ (self w')) = false /\
  (String.length (lastError_ (self w')) < ERROR_MSG_MAX)%nat /\
  keeps_session w w' /\
  map fst (emitted w w') =
    (if open_ (self w) || initialized_ (self w)
     then [viStatusDesc handle status] else []).
Proof.
  intros H w' handle. subst w' handle.
  pose proof (processStatus_fail_error drv status w H) as He.
  pose proof (error_only_fields _ _ (processStatus_error_only status w)) as Hk.
  split; [exact He|]. rewrite He. revert Hk.
  rewrite processStatus_fail_eq by exact H. cbv zeta. cbn [snd].
  unfold failure_text. cbv zeta.
  destruct (open_ (self w) || initialized_ (self w)); intros Hk.
  - split; [apply string_z_no_NUL|]. split.
    { unfold description, ERROR_MSG_MAX. apply string_z_length_lt.
      apply poke_same. }
    split; [exact Hk|now rewrite emitted_app].
  - split; [reflexivity|]. split; [apply Nat.ltb_lt; reflexivity|].
    split; [exact Hk|now rewrite emitted_same].
Qed.

(** X4.  On an open device of an initialized session read makes
    one viRead call with the buffer size given.  When it succeeds the
    result is the first retCnt characters of the buffer, NUL or not, so it
    is as long as the driver reports and no longer than the buffer size
    for a driver that keeps retCnt within it, and Last Error is untouched.
    When it fails the result is empty and Last Error describes the
    failure. *)
Theorem read_returns_what_was_received (bufSize : ViUInt32) (w : World) :
  initialized_ (self w) = true -> open_ (self w) = true ->
  let c := viRead (device_ (self w)) bufSize in
  let r := drv (trace w) c in
  let w' := snd (read drv bufSize w) in
  (exists rest : list Event,
     emitted w w' = (c, r) :: rest /\
     forallb (fun e : Event => is_viStatusDesc (fst e)) rest = true) /\
  (VI_SUCCESS <= r_status r ->
   fst (read drv bufSize w) = string_n (r_buf r) 0 (Z.to_nat (r_count r)) /\
   Z.of_nat (String.length (fst (read drv bufSize w))) = Z.max 0 (r_count r) /\
   (r_count r <= bufSize ->
    Z.of_nat (String.length (fst (read drv bufSize w))) <= Z.max 0 bufSize) /\
   w' = record w c r) /\
  (r_status r < VI_SUCCESS ->
   fst (read drv bufSize w) = EmptyString /\
   lastError_ (self w') = failure_text drv (record w c r) (r_status r)).
Proof.
  intros Hi Ho c r w'. subst w'.
  assert (initialized_ (self w) && open_ (self w) = true) as Hg
    by now rewrite Hi, Ho.
  rewrite read_unfold by exact Hg. cbv zeta. fold c. fold r. cbn [fst snd].
  split; [|split].
  - destruct (described_record_emitted w c r _
                (processStatus_described (r_status r) (record w c r)))
      as (rest & Hem & Hd & _).
    exists rest. split; [now apply emitted_of_trace|exact Hd].
  - intros Hok. rewrite processStatus_ok by exact Hok. cbn [fst snd].
    split; [reflexivity|]. rewrite string_n_length.
    split; [lia|]. split; [lia|reflexivity].
  - intros Hbad.
    destruct (processStatus_fail drv _ (record w c r) Hbad) as [Hf _].
    rewrite Hf. split; [reflexivity|].
    now apply processStatus_fail_error.
Qed.


(** X5.  When its write succeeds, query sleeps once, for the
    timeout stored in the object, and then returns what read with the
    default buffer size returns: the calls are those of write, the sleep,
    and those of read, in this order. *)
Theorem query_sleeps_between_write_and_read (msg : string) (w : World) :
  fst (write drv msg w) = true ->
  let w1 := snd (write drv msg w) in
  let pause := sleep_for (timeout_ (self w)) in
  let w2 := record w1 pause (drv (trace w1) pause) in
  query drv msg w = read drv read_default_bufSize w2 /\
  emitted w (snd (query drv msg w)) =
    emitted w w1 ++ [(pause, drv (trace w1) pause)] ++
    emitted w2 (snd (read drv read_default_bufSize w2)).
Proof.
  intros H w1 pause w2.
  pose proof (error_only_fields _ _ (write_error_only msg w))
    as (_ & _ & _ & _ & _ & _ & Hto & evs & Hev).
  fold w1 in Hto, Hev.
  assert (query drv msg w = read drv read_default_bufSize w2) as E.
  { rewrite query_unfold by exact H. cbv zeta. fold w1.
    unfold w2, pause. now rewrite Hto. }
  split; [exact E|]. rewrite E.
  pose proof (error_only_fields _ _ (read_error_only read_default_bufSize w2))
    as (_ & _ & _ & _ & _ & _ & _ & evs2 & Hev2).
  rewrite (emitted_of_trace w w1 evs Hev).
  rewrite (emitted_of_trace w2 _ evs2 Hev2).
  apply emitted_of_trace. rewrite Hev2. unfold w2. cbn [record trace].
  rewrite Hev. now rewrite <- !app_assoc.
Qed.

(** X2.  On an open device of an initialized session
    write(vector) makes one viWrite call for the whole list: the elements
    separated by ';' followed by the terminator, with one more terminator
    at the end, provided that text plus one fits 32 bits.  It returns
    whether the status of that call is not a failure; at most viStatusDesc
    calls follow. *)
Theorem write_list_single_transaction (l : list string) (w : World) :
  initialized_ (self w) = true -> open_ (self w) = true ->
  let sep := ";" +:+ String (termChar_ (self w)) EmptyString in
  let msg := String.concat sep l in
  Z.of_nat (String.length msg) + 1 < 2 ^ 32 ->
  let c :=
    viWrite (device_ (self w))
      (list_ascii_of_string msg ++ [termChar_ (self w)])
      (Z.of_nat (String.length msg) + 1) in
  let r := drv (trace w) c in
  fst (write_list drv l w) = succeeded r /\
  exists rest : list Event,
    emitted w (snd (write_list drv l w)) = (c, r) :: rest /\
    forallb (fun e : Event => is_viStatusDesc (fst e)) rest = true.
Proof.
  intros Hi Ho sep msg Hfit c r.
  rewrite write_list_unfold. fold sep.
  assert (join l sep = msg) as ->.
  { unfold msg, join. destruct l as [|x l]; [reflexivity|].
    cbn [join_loop]. rewrite join_loop_sep. destruct l; reflexivity. }
  rewrite (write_one_call msg w Hi Ho Hfit). cbv zeta. fold c. fold r.
  split; [apply processStatus_fst|].
  destruct (described_record_emitted w c r _
              (processStatus_described (r_status r) (record w c r)))
    as (rest & Hem & Hd & _).
  exists rest. split; [now apply emitted_of_trace|exact Hd].
Qed.

(** X6.  open returns true exactly when the session is initialized
    and both viOpen and the fetch of VI_ATTR_TERMCHAR succeed.  It then
    made these two calls and no other, the device is open with the handle
    and the terminator the driver replied and the timeout given, and Last
    Error is as before. *)
Theorem open_succeeds_exactly (deviceStr : string) (accessMode : ViAccessMode)
    (timeout : ViUInt32) (w : World) :
  let r := viOpen_reply drv w deviceStr accessMode timeout in
  let r' := termchar_reply drv w deviceStr accessMode timeout in
  let w' := snd (open drv deviceStr accessMode timeout w) in
  (fst (open drv deviceStr accessMode timeout w) = true <->
   initialized_ (self w) = true /\
   VI_SUCCESS <= r_status r /\ VI_SUCCESS <= r_status r') /\
  (fst (open drv deviceStr accessMode timeout w) = true ->
   open_ (self w') = true /\
   device_ (self w') = r_out r /\
   termChar_ (self w') = to_ViUInt8 (r_out r') /\
   timeout_ (self w') = timeout /\
   lastError_ (self w') = lastError_ (self w) /\
   map fst (emitted w w') =
     [viOpen (session_ (self w)) deviceStr accessMode timeout;
      viGetAttribute (r_out r) VI_ATTR_TERMCHAR]).
Proof.
  intros r r' w'. subst r r' w'. split.
  - split; [apply open_true_inv|].
    intros (Hi & H1 & H2). now rewrite open_succeeds by assumption.
  - intros H. destruct (open_true_inv drv _ _ _ _ H) as (Hi & H1 & H2).
    rewrite open_succeeds by assumption. cbn [snd].
    unfold after_termchar. cbv zeta. rewrite emitted_app.
    repeat split.
Qed.

(** X7.  Whatever its outcome, open stores the timeout it was given
    and leaves the session handle, the initialized flag and the close
    command alone.  On a session that is not initialized it returns false
    without any driver call and without touching Last Error. *)
Theorem open_always_stores_timeout (deviceStr : string)
    (accessMode : ViAccessMode) (timeout : ViUInt32) (w : World) :
  let w' := snd (open drv deviceStr accessMode timeout w) in
  timeout_ (self w') = timeout /\
  session_ (self w') = session_ (self w) /\
  initialized_ (self w') = initialized_ (self w) /\
  closeCmd_ (self w') = closeCmd_ (self w) /\
  (initialized_ (self w) = false ->
   fst (open drv deviceStr accessMode timeout w) = false /\
   trace w' = trace w /\ lastError_ (self w') = lastError_ (self w)).
Proof.
  intros w'. subst w'.
  destruct (open_frame deviceStr accessMode timeout w) as (H1 & H2 & H3 & H4).
  repeat split; try assumption;
    rewrite open_uninitialized by assumption; reflexivity.
Qed.


Lemma close_command_empty (w : World) :
  closeCmd_ (self w) = EmptyString -> close_command drv w = (tt, w).
Proof. intros H. unfold close_command, bind, this. now rewrite H. Qed.

Lemma close_command_nonempty (w : World) :
  closeCmd_ (self w) <> EmptyString ->
  close_command drv w =
  let (sent, w1) := write drv (closeCmd_ (self w)) w in
  if sent then (tt, w1)
  else (tt, mkWorld (set_lastError_ close_warning (self w1)) (trace w1)).
Proof.
  intros H. unfold close_command, bind, this.
  apply String.eqb_neq in H. rewrite H. cbn [negb].
  destruct (write drv (closeCmd_ (self w)) w) as [[] w1]; reflexivity.
Qed.

(** The release of the handle, from the world [w1] the close command left. *)
Lemma close_release (w : World) :
  open_ (self w) = true ->
  let w1 := snd (close_command drv w) in
  let c := viClose (device_ (self w)) in
  let rc := drv (trace w1) c in
  fst (close drv w) = succeeded rc /\
  (VI_SUCCESS <= r_status rc ->
   lastError_ (self (snd (close drv w))) = lastError_ (self w1)) /\
  exists post : list Event,
    trace (snd (close drv w)) = trace w1 ++ (c, rc) :: post /\
    forallb (fun e : Event => is_viStatusDesc (fst e)) post = true.
Proof.
  intros Ho w1 c rc. rewrite close_unfold by exact Ho. cbv zeta.
  fold w1. fold c. fold rc.
  pose proof (processStatus_fst (r_status rc) (record w1 c rc)) as Hf.
  destruct (described_record_emitted w1 c rc _
              (processStatus_described (r_status rc) (record w1 c rc)))
    as (post & Hem & Hd & Hk).
  destruct (Z.lt_ge_cases (r_status rc) VI_SUCCESS) as [Hc|Hc].
  - destruct (processStatus drv (r_status rc) (record w1 c rc)) as [ok w2].
    cbn [fst snd] in *. unfold succeeded. subst ok.
    assert ((VI_SUCCESS <=? r_status rc) = false) as -> by now apply Z.leb_gt.
    cbn [fst snd]. destruct Hk as (_ & _ & _ & Ho2 & _).
    assert (open_ (self w1) = true) as Ho1.
    { pose proof (error_only_fields _ _
        (errs_error_only _ _ (close_command_errs drv w)))
        as (_ & _ & _ & Ho1 & _). fold w1 in Ho1. now rewrite Ho1. }
    rewrite Ho2, Ho1. split; [reflexivity|]. split; [lia|].
    now exists post.
  - revert Hem. rewrite processStatus_ok by exact Hc. intros Hem.
    cbn [fst snd]. unfold succeeded.
    assert ((VI_SUCCESS <=? r_status rc) = true) as -> by now apply Z.leb_le.
    split; [reflexivity|]. split; [reflexivity|].
    exists post. split; [|exact Hd]. exact Hem.
Qed.

(** X8.  With a close command registered, close on an open device
    first makes one viWrite call with the command followed by the
    terminator, then one viClose call on the device handle, and otherwise
    only viStatusDesc calls.  Its result is decided by the viClose alone:
    when the write fails and the viClose succeeds, close returns true and
    Last Error holds the warning text. *)
Theorem close_sends_command_then_releases (w : World) :
  initialized_ (self w) = true -> open_ (self w) = true ->
  closeCmd_ (self w) <> EmptyString ->
  Z.of_nat (String.length (closeCmd_ (self w))) + 1 < 2 ^ 32 ->
  let cw :=
    viWrite (device_ (self w))
      (list_ascii_of_string (closeCmd_ (self w)) ++ [termChar_ (self w)])
      (Z.of_nat (String.length (closeCmd_ (self w))) + 1) in
  let rw := drv (trace w) cw in
  exists (mid : list Event) (rc : Reply) (post : list Event),
    emitted w (snd (close drv w)) =
      (cw, rw) :: mid ++ (viClose (device_ (self w)), rc) :: post /\
    forallb (fun e : Event => is_viStatusDesc (fst e)) (mid ++ post) = true /\
    fst (close drv w) = succeeded rc /\
    (r_status rw < VI_SUCCESS -> VI_SUCCESS <= r_status rc ->
     lastError_ (self (snd (close drv w))) = close_warning).
Proof.
  intros Hi Ho Hne Hfit cw rw.
  destruct (close_release w Ho) as (Hf & Hle & post & Hem & Hpost).
  cbv zeta in Hf, Hle, Hem.
  revert Hf Hle Hem. rewrite close_command_nonempty by exact Hne.
  rewrite (write_one_call _ w Hi Ho Hfit). cbv zeta. fold cw. fold rw.
  pose proof (processStatus_fst (r_status rw) (record w cw rw)) as Hs.
  destruct (described_record_emitted w cw rw _
              (processStatus_described (r_status rw) (record w cw rw)))
    as (mid & Hmid & Hd & _).
  destruct (processStatus drv (r_status rw) (record w cw rw)) as [sent wA].
  cbn [fst snd] in Hs, Hmid.
  set (w1 := snd (if sent then (tt, wA)
                  else (tt, mkWorld (set_lastError_ close_warning (self wA))
                              (trace wA)))).
  assert (trace w1 = trace wA) as Ht by (unfold w1; now destruct sent).
  intros Hf Hle Hem.
  set (rc := drv (trace w1) (viClose (device_ (self w)))) in *.
  exists mid, rc, post. split; [|split; [|split]].
  - apply emitted_of_trace. rewrite Hem, Ht, Hmid.
    now rewrite <- app_assoc.
  - now rewrite forallb_app, Hd, Hpost.
  - exact Hf.
  - intros Hbad Hok. rewrite (Hle Hok). unfold w1.
    assert (sent = false) as -> by (rewrite Hs; now apply Z.leb_gt).
    reflexivity.
Qed.

(** X9.  close changes no field but open_ and Last Error: the
    handles, the initialized flag, the close command, the terminator and
    the timeout stay, and open_ is never set by it.  Without a close
    command, close on an open device starts with the viClose call, makes no
    viWrite call, and returns whether the viClose succeeded. *)
Theorem close_releases_and_keeps_settings (w : World) :
  let w' := snd (close drv w) in
  (session_ (self w') = session_ (self w) /\
   device_ (self w') = device_ (self w) /\
   initialized_ (self w') = initialized_ (self w) /\
   closeCmd_ (self w') = closeCmd_ (self w) /\
   termChar_ (self w') = termChar_ (self w) /\
   timeout_ (self w') = timeout_ (self w) /\
   (open_ (self w') = true -> open_ (self w) = true)) /\
  (open_ (self w) = true -> closeCmd_ (self w) = EmptyString ->
   exists (rc : Reply) (post : list Event),
     emitted w w' = (viClose (device_ (self w)), rc) :: post /\
     forallb (fun e : Event => is_viStatusDesc (fst e)) post = true /\
     fst (close drv w) = succeeded rc).
Proof.
  intros w'. subst w'. split.
  - destruct (close_frame w) as (H1 & H2 & H3 & H4 & H5 & H6 & H7 & _).
    repeat split; assumption.
  - intros Ho Hc.
    destruct (close_release w Ho) as (Hf & _ & post & Hem & Hpost).
    cbv zeta in Hf, Hem. revert Hf Hem.
    rewrite close_command_empty by exact Hc. cbn [snd]. intros Hf Hem.
    exists (drv (trace w) (viClose (device_ (self w)))), post.
    split; [apply emitted_of_trace; exact Hem|].
    split; [exact Hpost|exact Hf].
Qed.

(** X11.  A device open only on an initialized session is an
    invariant of the class: when it holds before open, close or the
    destructor it holds afterwards, and it holds after every operation that
    keeps the session as X10 says. *)
Theorem open_implies_initialized_is_kept (w : World) :
  open_implies_initialized w ->
  (forall (deviceStr : string) (accessMode : ViAccessMode)
     (timeout : ViUInt32),
     open_implies_initialized
       (snd (open drv deviceStr accessMode timeout w))) /\
  open_implies_initialized (snd (close drv w)) /\
  open_implies_initialized (snd (VISADevice_dtor drv w)) /\
  (forall w' : World, keeps_session w w' -> open_implies_initialized w').
Proof.
  intros Hinv. unfold open_implies_initialized in *.
  split; [|split; [|split]].
  - intros deviceStr accessMode timeout.
    destruct (open_frame deviceStr accessMode timeout w)
      as (_ & _ & Hi & _). rewrite Hi.
    destruct (initialized_ (self w)) eqn:E; [reflexivity|].
    rewrite open_uninitialized by exact E. cbn. exact Hinv.
  - destruct (close_frame w) as (_ & _ & Hi & _ & _ & _ & Ho & _).
    intros H. rewrite Hi. apply Hinv, Ho, H.
  - destruct (initialized_ (self w)) eqn:E.
    2:{ rewrite dtor_guard by exact E. cbn [snd]. now rewrite E. }
    rewrite dtor_unfold by exact E. cbv zeta.
    set (w1 := if open_ (self w) then snd (close drv w) else w).
    assert (initialized_ (self w1) = true) as Hi1.
    { unfold w1. destruct (open_ (self w)); [|exact E].
      destruct (close_frame w) as (_ & _ & Hi & _). now rewrite Hi. }
    destruct (open_ (self w1)) eqn:Ho1; [intros _; exact Hi1|].
    pose proof (error_only_fields _ _ (call_processStatus_error_only
      (viClose (session_ (self w1))) w1)) as (_ & _ & _ & Ho2 & _).
    cbv zeta in Ho2.
    destruct (processStatus drv _ _) as [[] w2];
      cbn [snd self open_ initialized_ set_initialized_] in *;
      rewrite Ho2, Ho1; discriminate.
  - intros w' (_ & _ & Hi & Ho & _). rewrite Hi, Ho. exact Hinv.
Qed.

(** X12.  The destructor does nothing on a session that is not
    initialized.  Otherwise it closes an open device first; when the
    device stays open it stops there and keeps the session, and when the
    device is not open it makes one viClose call on the session handle and
    clears initialized_ exactly when that call succeeds. *)
Theorem dtor_releases_device_before_session (w : World) :
  let w' := snd (VISADevice_dtor drv w) in
  let w1 := if open_ (self w) then snd (close drv w) else w in
  (initialized_ (self w) = false -> w' = w) /\
  (initialized_ (self w) = true -> open_ (self w1) = true ->
   w' = w1 /\ initialized_ (self w') = true) /\
  (initialized_ (self w) = true -> open_ (self w1) = false ->
   open_ (self w') = false /\
   exists (r : Reply) (post : list Event),
     emitted w1 w' = (viClose (session_ (self w)), r) :: post /\
     forallb (fun e : Event => is_viStatusDesc (fst e)) post = true /\
     initialized_ (self w') = negb (succeeded r)).
Proof.
  intros w' w1. subst w'. split; [|split].
  - intros H. now rewrite dtor_guard.
  - intros Hi Ho1. rewrite dtor_unfold by exact Hi. cbv zeta. fold w1.
    rewrite Ho1. cbn [snd]. split; [reflexivity|].
    unfold w1. destruct (open_ (self w)); [|exact Hi].
    destruct (close_frame w) as (_ & _ & H & _). now rewrite H.
  - intros Hi Ho1. rewrite dtor_unfold by exact Hi. cbv zeta. fold w1.
    rewrite Ho1.
    assert (session_ (self w1) = session_ (self w) /\
            initialized_ (self w1) = true) as [Hs Hi1].
    { unfold w1. destruct (open_ (self w)); [|now split].
      destruct (close_frame w) as (H1 & _ & H3 & _). now rewrite H1, H3. }
    rewrite Hs.
    set (c := viClose (session_ (self w))). set (r := drv (trace w1) c).
    pose proof (processStatus_fst (r_status r) (record w1 c r)) as Hf.
    destruct (described_record_emitted w1 c r _
                (processStatus_described (r_status r) (record w1 c r)))
      as (post & Hem & Hd & (_ & _ & Hi2 & Ho2 & _)).
    destruct (processStatus drv (r_status r) (record w1 c r)) as [ok w2].
    cbn [fst snd] in *.
    assert (succeeded r = ok) as Hsucc by (unfold succeeded; now rewrite Hf).
    destruct ok; cbn [snd self trace open_ set_initialized_ initialized_].
    + split; [now rewrite Ho2|]. exists r, post.
      split; [now apply emitted_of_trace|]. split; [exact Hd|].
      now rewrite Hsucc.
    + split; [now rewrite Ho2|]. exists r, post.
      split; [now apply emitted_of_trace|].
      split; [exact Hd|]. now rewrite Hsucc, Hi2.
Qed.


(** ** findInstruments, call by call *)

(** The loop from the point where [pre] is filled and [n] places are left:
    the replies [oks] of the viFindNext calls that succeeded fill the next
    places in order, the rest stays empty, and a failing call is the last
    one. *)
Lemma findNext_loop_run (findList : ViSession) (n : nat) :
  forall (pre : list string) (w : World),
    let res :=
      findNext_loop drv findList n (length pre)
        (pre ++ replicate n EmptyString) w in
    exists (oks : list Reply) (tail : list Event),
      trace (snd res) =
        trace w ++ map (pair (viFindNext findList)) oks ++ tail /\
      forallb succeeded oks = true /\
      fst res =
        pre ++ map truncated oks ++
        replicate (n - length oks) EmptyString /\
      ((length oks = n /\ tail = []) \/
       (exists (rbad : Reply) (descs : list Event),
          succeeded rbad = false /\
          tail = (viFindNext findList, rbad) :: descs /\
          forallb (fun e : Event => is_viStatusDesc (fst e)) descs = true /\
          (length oks < n)%nat)).
Proof.
  induction n as [|n IH]; intros pre w res; subst res.
  - exists [], []. cbn. rewrite !app_nil_r. repeat split. now left.
  - rewrite findNext_loop_S. cbv zeta.
    set (c := viFindNext findList). set (r := drv (trace w) c).
    destruct (Z.lt_ge_cases (r_status r) VI_SUCCESS) as [Hbad|Hok].
    + destruct (processStatus_fail drv _ (record w c r) Hbad) as [Hf _].
      destruct (described_record_emitted w c r _
                  (processStatus_described (r_status r) (record w c r)))
        as (descs & Ht & Hd & _).
      destruct (processStatus drv (r_status r) (record w c r)) as [ok w2].
      cbn [fst snd] in *. subst ok.
      exists [], ((c, r) :: descs). cbn [map app length fst snd].
      split; [exact Ht|]. split; [reflexivity|].
      split; [now rewrite Nat.sub_0_r|].
      right. exists r, descs. repeat split; try assumption.
      * unfold succeeded. now apply Z.leb_gt.
      * lia.
    + rewrite processStatus_ok by exact Hok.
      assert (<[length pre:=truncated r]>
                (pre ++ replicate (S n) EmptyString) =
              (pre ++ [truncated r]) ++ replicate n EmptyString) as ->.
      { rewrite insert_app_r_alt by lia. rewrite Nat.sub_diag.
        cbn. now rewrite <- app_assoc. }
      assert (S (length pre) = length (pre ++ [truncated r])) as ->
        by (rewrite length_app; cbn; lia).
      destruct (IH (pre ++ [truncated r]) (record w c r))
        as (oks & tail & Ht & Hoks & Hl & Hend).
      exists (r :: oks), tail. cbn [map app length forallb].
      split; [rewrite Ht; cbn [record trace]; now rewrite <- app_assoc|].
      split.
      { rewrite Hoks. unfold succeeded.
        assert ((VI_SUCCESS <=? r_status r) = true) as ->
          by now apply Z.leb_le.
        reflexivity. }
      split; [rewrite Hl; now rewrite <- app_assoc|].
      destruct Hend as [[Hn ->]|(rbad & descs & H1 & H2 & H3 & H4)].
      * left. split; [lia|reflexivity].
      * right. exists rbad, descs. repeat split; try assumption. lia.
Qed.

(** X13.  findInstruments returns the empty vector without any
    driver call when the session is not initialized, and the empty vector
    after the one viFindRsrc call (at most viStatusDesc calls follow, no
    viFindNext) when that call fails, with the failure described in Last
    Error. *)
Theorem findInstruments_empty_on_failure (expr : string) (w : World) :
  (initialized_ (self w) = false ->
   findInstruments drv expr w = ([], w)) /\
  (initialized_ (self w) = true ->
   let c := viFindRsrc (session_ (self w)) expr in
   let r := drv (trace w) c in
   let w' := snd (findInstruments drv expr w) in
   r_status r < VI_SUCCESS ->
   fst (findInstruments drv expr w) = [] /\
   lastError_ (self w') = failure_text drv (record w c r) (r_status r) /\
   exists rest : list Event,
     emitted w w' = (c, r) :: rest /\
     forallb (fun e : Event => is_viStatusDesc (fst e)) rest = true).
Proof.
  split.
  - intros H. unfold findInstruments, bind, this. now rewrite H.
  - intros Hi c r w' Hbad. subst w'.
    unfold findInstruments, bind, this. rewrite Hi. rewrite call_eq.
    fold c. fold r.
    destruct (processStatus_fail drv _ (record w c r) Hbad) as [Hf _].
    pose proof (processStatus_fail_error drv _ (record w c r) Hbad) as He.
    destruct (described_record_emitted w c r _
                (processStatus_described (r_status r) (record w c r)))
      as (rest & Ht & Hd & _).
    destruct (processStatus drv (r_status r) (record w c r)) as [ok w2].
    cbn [fst snd] in *. subst ok. cbn [fst snd ret].
    split; [reflexivity|]. split; [exact He|].
    exists rest. split; [now apply emitted_of_trace|exact Hd].
Qed.

(** X14.  After a successful viFindRsrc reporting retSize > 0, the
    vector is the discovery buffer followed by the truncated buffers of the
    viFindNext calls that succeeded, in order, and by empty strings up to
    retSize elements.  The viFindNext calls are consecutive; either all
    retSize-1 of them succeed, or the first failing one is the last call
    to viFindNext. *)
Theorem findInstruments_partial_results (expr : string) (w : World) :
  initialized_ (self w) = true ->
  let c := viFindRsrc (session_ (self w)) expr in
  let r := drv (trace w) c in
  let n := Z.to_nat (r_count r) in
  VI_SUCCESS <= r_status r -> 0 < r_count r ->
  exists (oks : list Reply) (tail : list Event),
    emitted w (snd (findInstruments drv expr w)) =
      (c, r) :: map (pair (viFindNext (r_out r))) oks ++ tail /\
    forallb succeeded oks = true /\
    fst (findInstruments drv expr w) =
      string_n (r_buf r) 0 VI_FIND_BUFLEN :: map truncated oks ++
      replicate (n - 1 - length oks) EmptyString /\
    ((length oks = (n - 1)%nat /\ tail = []) \/
     (exists (rbad : Reply) (descs : list Event),
        succeeded rbad = false /\
        tail = (viFindNext (r_out r), rbad) :: descs /\
        forallb (fun e : Event => is_viStatusDesc (fst e)) descs = true /\
        (length oks < n - 1)%nat)).
Proof.
  intros Hi c r n Hok Hpos.
  rewrite (findInstruments_found drv expr w Hi Hok). fold c. fold r. fold n.
  assert (<[0%nat:=string_n (r_buf r) 0 VI_FIND_BUFLEN]>
            (replicate n EmptyString) =
          [string_n (r_buf r) 0 VI_FIND_BUFLEN] ++
          replicate (n - 1) EmptyString) as ->.
  { destruct n as [|m] eqn:E; [unfold n in E; lia|].
    cbn. now rewrite Nat.sub_0_r. }
  destruct (findNext_loop_run (r_out r) (n - 1)
              [string_n (r_buf r) 0 VI_FIND_BUFLEN] (record w c r))
    as (oks & tail & Ht & Hoks & Hl & Hend).
  cbn [length] in Ht, Hl.
  exists oks, tail. split; [|split; [exact Hoks|split; [exact Hl|exact Hend]]].
  apply emitted_of_trace. rewrite Ht. cbn [record trace].
  now rewrite <- app_assoc.
Qed.

End MoreLaws.

(** ** The constructor, for every driver and storage *)

(** X15.  The constructor makes one viOpenDefaultRM call, stores the
    session handle it replied and empties the close command; open_, the
    device handle, the terminator and the timeout keep what the storage
    held.  On success initialized_ is true and Last Error empty; on failure
    initialized_ too keeps what the storage held and Last Error describes
    the failure. *)
Theorem ctor_assigns_session_only (drv : Driver) (storage : VISADevice) :
  let r := drv [] viOpenDefaultRM in
  let w := constructed drv storage in
  let called := mkWorld
    (set_session_ (r_out r)
       (set_lastError_ EmptyString (set_closeCmd_ EmptyString storage)))
    [(viOpenDefaultRM, r)] in
  (session_ (self w) = r_out r /\
   closeCmd_ (self w) = EmptyString /\
   open_ (self w) = open_ storage /\
   device_ (self w) = device_ storage /\
   termChar_ (self w) = termChar_ storage /\
   timeout_ (self w) = timeout_ storage) /\
  (VI_SUCCESS <= r_status r ->
   initialized_ (self w) = true /\
   lastError_ (self w) = EmptyString /\
   map fst (trace w) = [viOpenDefaultRM]) /\
  (r_status r < VI_SUCCESS ->
   initialized_ (self w) = initialized_ storage /\
   lastError_ (self w) = failure_text drv called (r_status r)).
Proof.
  intros r w called. subst w.
  assert (constructed drv storage =
          let (ok, w2) := processStatus drv (r_status r) called in
          if ok then mkWorld (set_initialized_ true (self w2)) (trace w2)
          else w2) as E.
  { unfold constructed, VISADevice_ctor, bind, assign, call.
    cbn -[processStatus]. fold r.
    change (mkWorld _ [(viOpenDefaultRM, r)]) with called.
    destruct (processStatus drv (r_status r) called) as [[] w2]; reflexivity. }
  rewrite E. clear E.
  pose proof (error_only_fields _ _
                (processStatus_error_only drv (r_status r) called))
    as (Hs & Hd & Hi & Ho & Hc & Ht & Hto & _).
  split; [|split].
  - destruct (processStatus drv (r_status r) called) as [[] w2];
      cbn [snd] in *; cbn [self set_initialized_ session_ closeCmd_ open_
                           device_ termChar_ timeout_];
      rewrite Hs, Hd, Ho, Hc, Ht, Hto; repeat split.
  - intros Hok. rewrite processStatus_ok by exact Hok. repeat split.
  - intros Hbad.
    destruct (processStatus_fail drv _ called Hbad) as [Hf _].
    pose proof (processStatus_fail_error drv _ called Hbad) as He.
    destruct (processStatus drv (r_status r) called) as [ok w2].
    cbn [fst snd] in *. subst ok. rewrite Hi. split; [reflexivity|exact He].
Qed.

(** ** The adapter *)

(** X16.  Shutdown always leaves the adapter not initialized, so a
    second Shutdown returns DEVICE_OK and does nothing.  On an initialized
    adapter it closes the device once and returns DEVICE_OK or DEVICE_ERR
    as close returned true or false; after a failed close the device is
    still open, its Last Error has been logged and cleared, and no later
    Shutdown closes it. *)
Theorem Shutdown_is_final (drv : Driver) (a : Adapter.BK9130B) :
  let a' := snd (Adapter.Shutdown drv a) in
  Adapter.initialized_ a' = false /\
  Adapter.Shutdown drv a' = (Adapter.DEVICE_OK, a') /\
  (Adapter.initialized_ a = true ->
   fst (Adapter.Shutdown drv a) =
     (if fst (close drv (Adapter.dev_ a)) then Adapter.DEVICE_OK
      else Adapter.DEVICE_ERR) /\
   trace (Adapter.dev_ a') = trace (snd (close drv (Adapter.dev_ a)))) /\
  (Adapter.initialized_ a = true ->
   fst (close drv (Adapter.dev_ a)) = false ->
   open_ (self (Adapter.dev_ a')) = true /\
   lastError_ (self (Adapter.dev_ a')) = EmptyString /\
   Adapter.logged a' =
     Adapter.logged a ++
     [lastError_ (self (snd (close drv (Adapter.dev_ a))))]).
Proof.
  intros a'. subst a'.
  pose proof (close_result drv (Adapter.dev_ a)) as Hres.
  unfold Adapter.Shutdown.
  destruct (Adapter.initialized_ a) eqn:Hi.
  - destruct (close drv (Adapter.dev_ a)) as [closed d]. cbn [fst snd] in *.
    destruct closed; cbn [negb fst snd].
    + split; [reflexivity|]. split; [reflexivity|].
      split; [split; reflexivity|]. discriminate.
    + split; [reflexivity|]. split; [reflexivity|].
      split; [split; reflexivity|]. intros _ _.
      cbn. symmetry in Hres. apply negb_false_iff in Hres.
      rewrite Hres. repeat split.
  - cbn [snd]. rewrite Hi. split; [reflexivity|]. split; [reflexivity|].
    split; discriminate.
Qed.

(** X17.  SetOpen returns DEVICE_OK or ERR_WRITE_FAILED.  After
    DEVICE_OK, GetOpen reports the state asked for; after ERR_WRITE_FAILED
    the state is the one before, the opposite of the one asked for, and the
    Last Error of the device has been consumed.  Asking for the state the
    adapter already records does nothing.  The active channel and the
    initialized flag are never changed. *)
Theorem SetOpen_then_GetOpen (drv : Driver) (open : bool)
    (a : Adapter.BK9130B) :
  let ret := fst (Adapter.SetOpen drv open a) in
  let a' := snd (Adapter.SetOpen drv open a) in
  (ret = Adapter.DEVICE_OK \/ ret = Adapter.ERR_WRITE_FAILED) /\
  (ret = Adapter.DEVICE_OK ->
   Adapter.GetOpen a' = (Adapter.DEVICE_OK, open)) /\
  (ret = Adapter.ERR_WRITE_FAILED ->
   Adapter.activeChannelState_ a' = negb open /\
   Adapter.activeChannelState_ a = negb open /\
   lastError_ (self (Adapter.dev_ a')) = EmptyString) /\
  (open = Adapter.activeChannelState_ a ->
   Adapter.SetOpen drv open a = (Adapter.DEVICE_OK, a)) /\
  Adapter.activeChannel_ a' = Adapter.activeChannel_ a /\
  Adapter.initialized_ a' = Adapter.initialized_ a.
Proof.
  intros ret a'. subst ret a'. unfold Adapter.SetOpen, Adapter.GetOpen.
  destruct (Bool.eqb open (Adapter.activeChannelState_ a)) eqn:E;
    cbn [negb].
  - apply Bool.eqb_prop in E. cbn [fst snd].
    split; [now left|]. split; [intros _; now rewrite E|].
    split; [discriminate|]. repeat split.
  - apply Bool.eqb_false_iff in E.
    destruct (write_list drv _ (Adapter.dev_ a)) as [sent d].
    destruct sent; cbn [fst snd].
    + split; [now left|]. split; [reflexivity|].
      split; [discriminate|]. split; [congruence|]. split; reflexivity.
    + split; [now right|]. split; [discriminate|].
      split.
      { intros _. cbn.
        destruct open, (Adapter.activeChannelState_ a);
          try congruence; repeat split. }
      split; [congruence|]. split; reflexivity.
Qed.

(** X18.  OnActiveChannel after a set stores the channel asked for
    whatever follows, and never calls pProp->Set.  When the select command
    cannot be written it returns ERR_WRITE_FAILED, keeps the output state
    and asks nothing more of the device (on a device that is not open it
    makes no driver call at all).  When it is written, the handler returns
    DEVICE_OK however the status query goes, and the output state becomes
    true exactly when the reply is the one character 1. *)
Theorem OnActiveChannel_set (drv : Driver) (got : string)
    (a : Adapter.BK9130B) :
  let res := Adapter.OnActiveChannel drv got Adapter.AfterSet a in
  let select := "INST:SEL " +:+ got in
  let d := snd (write drv select (Adapter.dev_ a)) in
  Adapter.activeChannel_ (snd res) = got /\
  snd (fst res) = None /\
  (fst (write drv select (Adapter.dev_ a)) = false ->
   fst (fst res) = Adapter.ERR_WRITE_FAILED /\
   Adapter.activeChannelState_ (snd res) = Adapter.activeChannelState_ a /\
   trace (Adapter.dev_ (snd res)) = trace d) /\
  (fst (write drv select (Adapter.dev_ a)) = true ->
   fst (fst res) = Adapter.DEVICE_OK /\
   Adapter.activeChannelState_ (snd res) =
     String.eqb (fst (query drv "SOUR:CHAN:OUTP:STAT?" d)) "1" /\
   Adapter.dev_ (snd res) = snd (query drv "SOUR:CHAN:OUTP:STAT?" d) /\
   Adapter.logged (snd res) = Adapter.logged a) /\
  (initialized_ (self (Adapter.dev_ a)) && open_ (self (Adapter.dev_ a))
     = false ->
   fst (fst res) = Adapter.ERR_WRITE_FAILED /\
   trace (Adapter.dev_ (snd res)) = trace (Adapter.dev_ a)).
Proof.
  intros res select d. subst res select d.
  pose proof (write_guard drv ("INST:SEL " +:+ got) (Adapter.dev_ a)) as Hg.
  revert Hg.
  unfold Adapter.OnActiveChannel.
  cbn [Adapter.activeChannel_ Adapter.set_activeChannel_ Adapter.dev_].
  destruct (write drv _ (Adapter.dev_ a)) as [sent d]. cbn [fst snd].
  intros Hg. destruct sent; cbn [negb].
  - cbn [Adapter.dev_ Adapter.set_dev_].
    destruct (query drv _ d) as [reply d']. cbn [fst snd].
    split; [reflexivity|]. split; [reflexivity|].
    split; [discriminate|]. split; [intros _; repeat split|].
    intros H. specialize (Hg H). discriminate Hg.
  - cbn [fst snd]. split; [reflexivity|]. split; [reflexivity|].
    split; [intros _; repeat split|]. split; [discriminate|].
    intros H. specialize (Hg H). injection Hg as ->. split; reflexivity.
Qed.

(** X19.  OnActiveChannel before a get queries the device.  An empty
    reply gives ERR_QUERY_FAILED and leaves the active channel as it was;
    any other reply gives DEVICE_OK, becomes the active channel as a whole,
    and is handed to pProp->Set up to its first NUL.  The output state is
    not touched. *)
Theorem OnActiveChannel_get (drv : Driver) (got : string)
    (a : Adapter.BK9130B) :
  let res := Adapter.OnActiveChannel drv got Adapter.BeforeGet a in
  let reply := fst (query drv "INST:SEL?" (Adapter.dev_ a)) in
  (reply = EmptyString ->
   fst res = (Adapter.ERR_QUERY_FAILED, None) /\
   Adapter.activeChannel_ (snd res) = Adapter.activeChannel_ a) /\
  (reply <> EmptyString ->
   fst res = (Adapter.DEVICE_OK, Some (Adapter.c_str reply)) /\
   Adapter.activeChannel_ (snd res) = reply /\
   Adapter.logged (snd res) = Adapter.logged a) /\
  Adapter.activeChannelState_ (snd res) = Adapter.activeChannelState_ a.
Proof.
  intros res reply. subst res reply. unfold Adapter.OnActiveChannel.
  destruct (query drv _ (Adapter.dev_ a)) as [tmp d]. cbn [fst snd].
  destruct (String.eqb tmp EmptyString) eqn:E.
  - apply String.eqb_eq in E. subst tmp. cbn [fst snd].
    split; [intros _; split; reflexivity|]. split; [congruence|reflexivity].
  - apply String.eqb_neq in E. cbn [fst snd].
    split; [congruence|]. split; [intros _; repeat split|reflexivity].
Qed.

(** ** The further statements at concrete drivers *)

Lemma write_list_single_transaction_witness :
  let drv := mock never in
  let w := opened drv in
  fst (write_list drv ["A"; "B"] w) = true /\
  hd_error (map fst (emitted w (snd (write_list drv ["A"; "B"] w)))) =
  Some (viWrite 2 ["A"; ";"; "010"; "B"; "010"]%char 5).
Proof.
  intros drv w.
  destruct (write_list_single_transaction drv ["A"; "B"] w)
    as (Hf & rest & Hem & _).
  - reflexivity.
  - reflexivity.
  - reflexivity.
  - split; [rewrite Hf; reflexivity|]. rewrite Hem. reflexivity.
Defined.

Lemma processStatus_failure_text_witness :
  let drv := mock never in
  let w := opened drv in
  lastError_ (self (snd (processStatus drv VI_ERROR_SYSTEM_ERROR w))) =
    "System error"%string /\
  map fst (emitted w (snd (processStatus drv VI_ERROR_SYSTEM_ERROR w))) =
    [viStatusDesc 2 VI_ERROR_SYSTEM_ERROR].
Proof.
  intros drv w.
  destruct (processStatus_failure_text drv VI_ERROR_SYSTEM_ERROR w)
    as (He & _ & _ & _ & Hem).
  - reflexivity.
  - split; [etransitivity; [exact He|reflexivity]|].
    etransitivity; [exact Hem|reflexivity].
Defined.

Lemma read_returns_what_was_received_witness :
  let drv := mock never in
  let w := opened drv in
  fst (read drv 16 w) = "1.50"%string /\
  Z.of_nat (String.length (fst (read drv 16 w))) <= 16.
Proof.
  intros drv w.
  destruct (read_returns_what_was_received drv 16 w) as (_ & Hok & _).
  - reflexivity.
  - reflexivity.
  - destruct Hok as (Hr & _ & Hle & _).
    + apply Z.leb_le. reflexivity.
    + split; [etransitivity; [exact Hr|reflexivity]|].
      etransitivity; [apply Hle; apply Z.leb_le; reflexivity|].
      apply Z.leb_le. reflexivity.
Defined.

Lemma query_sleeps_between_write_and_read_witness :
  let drv := mock never in
  let w := opened drv in
  fst (query drv "VOLT?" w) = "1.50"%string.
Proof.
  intros drv w.
  destruct (query_sleeps_between_write_and_read drv "VOLT?" w) as [E _].
  - reflexivity.
  - rewrite E. reflexivity.
Defined.

Lemma open_succeeds_exactly_witness :
  let drv := mock never in
  let w := constructed drv zeroed in
  fst (open drv usb VI_NO_LOCK 2000 w) = true /\
  open_ (self (snd (open drv usb VI_NO_LOCK 2000 w))) = true /\
  termChar_ (self (snd (open drv usb VI_NO_LOCK 2000 w))) = "010"%char.
Proof.
  intros drv w.
  destruct (open_succeeds_exactly drv usb VI_NO_LOCK 2000 w) as [Hiff Hst].
  assert (fst (open drv usb VI_NO_LOCK 2000 w) = true) as Ht.
  { apply Hiff. split; [reflexivity|].
    split; apply Z.leb_le; reflexivity. }
  destruct (Hst Ht) as (Ho & _ & Hterm & _).
  split; [exact Ht|]. split; [exact Ho|].
  etransitivity; [exact Hterm|reflexivity].
Defined.

Lemma open_always_stores_timeout_witness :
  let drv := mock never in
  let w := mkWorld zeroed [] in
  fst (open drv usb VI_NO_LOCK 2000 w) = false /\
  timeout_ (self (snd (open drv usb VI_NO_LOCK 2000 w))) = 2000 /\
  trace (snd (open drv usb VI_NO_LOCK 2000 w)) = [].
Proof.
  intros drv w.
  destruct (open_always_stores_timeout drv usb VI_NO_LOCK 2000 w)
    as (Hto & _ & _ & _ & Hun).
  destruct Hun as (Hf & Ht & _); [reflexivity|].
  split; [exact Hf|]. split; [exact Hto|exact Ht].
Defined.

Lemma close_sends_command_then_releases_witness :
  let drv := mock is_viWrite in
  let w := snd (onClose "OFF" (opened drv)) in
  fst (close drv w) = true /\
  lastError_ (self (snd (close drv w))) = close_warning.
Proof.
  intros drv w.
  destruct (close_sends_command_then_releases drv w)
    as (mid & rc & post & _ & _ & Hf & Hwarn).
  - reflexivity.
  - reflexivity.
  - intros H. discriminate H.
  - reflexivity.
  - assert (fst (close drv w) = true) as Ht by reflexivity.
    split; [exact Ht|]. apply Hwarn; [reflexivity|].
    rewrite Ht in Hf. symmetry in Hf. apply Z.leb_le. exact Hf.
Defined.

Lemma close_releases_and_keeps_settings_witness :
  let drv := mock never in
  let w := opened drv in
  fst (close drv w) = true /\
  exists post : list Event,
    map fst (emitted w (snd (close drv w))) = viClose 2 :: map fst post.
Proof.
  intros drv w.
  destruct (close_releases_and_keeps_settings drv w) as [_ H].
  destruct H as (rc & post & Hem & _ & Hf); [reflexivity|reflexivity|].
  split; [reflexivity|]. exists post. rewrite Hem. reflexivity.
Defined.

Lemma open_implies_initialized_is_kept_witness :
  let drv := mock never in
  let w := constructed drv zeroed in
  initialized_ (self (snd (open drv usb VI_NO_LOCK 2000 w))) = true.
Proof.
  intros drv w.
  destruct (open_implies_initialized_is_kept drv w) as (Hopen & _).
  - intros H. discriminate H.
  - apply (Hopen usb VI_NO_LOCK 2000). reflexivity.
Defined.

Lemma dtor_releases_device_before_session_witness :
  let drv := mock never in
  let w := opened drv in
  open_ (self (snd (VISADevice_dtor drv w))) = false /\
  initialized_ (self (snd (VISADevice_dtor drv w))) = false /\
  map fst (emitted w (snd (VISADevice_dtor drv w))) = [viClose 2; viClose 1].
Proof.
  intros drv w.
  destruct (dtor_releases_device_before_session drv w) as (_ & _ & H).
  destruct H as (Ho & _); [reflexivity|reflexivity|].
  split; [exact Ho|]. split; reflexivity.
Defined.

Lemma findInstruments_empty_on_failure_witness :
  let drv := mock is_viFindRsrc in
  let w := constructed drv zeroed in
  fst (findInstruments drv "USB?*" w) = [] /\
  lastError_ (self (snd (findInstruments drv "USB?*" w))) =
    "System error"%string.
Proof.
  intros drv w.
  destruct (findInstruments_empty_on_failure drv "USB?*" w) as [_ H].
  destruct H as (Hf & He & _); [reflexivity|reflexivity|].
  split; [exact Hf|]. etransitivity; [exact He|reflexivity].
Defined.

Lemma findInstruments_partial_results_witness :
  let drv := mock is_viFindNext in
  let w := constructed drv zeroed in
  fst (findInstruments drv "USB?*" w) =
    [string_n (buffer_of "USB0::0xFFFF::0x9130::INSTR") 0 VI_FIND_BUFLEN;
     EmptyString] /\
  exists (oks : list Reply) (tail : list Event),
    emitted w (snd (findInstruments drv "USB?*" w)) =
      (viFindRsrc 1 "USB?*", drv (trace w) (viFindRsrc 1 "USB?*")) ::
      map (pair (viFindNext 3)) oks ++ tail.
Proof.
  intros drv w.
  destruct (findInstruments_partial_results drv "USB?*" w)
    as (oks & tail & Hem & _).
  - reflexivity.
  - apply Z.leb_le. reflexivity.
  - reflexivity.
  - split; [vm_compute; reflexivity|]. exists oks, tail. exact Hem.
Defined.

Lemma Shutdown_is_final_witness :
  let drv := mock is_viClose in
  let a := adapter_on (opened drv) in
  fst (Adapter.Shutdown drv a) = Adapter.DEVICE_ERR /\
  open_ (self (Adapter.dev_ (snd (Adapter.Shutdown drv a)))) = true /\
  Adapter.Shutdown drv (snd (Adapter.Shutdown drv a)) =
    (Adapter.DEVICE_OK, snd (Adapter.Shutdown drv a)).
Proof.
  intros drv a.
  destruct (Shutdown_is_final drv a) as (_ & Hagain & Hret & Hfail).
  destruct Hret as [Hr _]; [reflexivity|].
  destruct Hfail as (Ho & _); [reflexivity|reflexivity|].
  split; [etransitivity; [exact Hr|reflexivity]|].
  split; [exact Ho|exact Hagain].
Defined.

Lemma SetOpen_then_GetOpen_witness :
  let drv := mock never in
  let a := adapter_on (opened drv) in
  fst (Adapter.SetOpen drv true a) = Adapter.DEVICE_OK /\
  Adapter.GetOpen (snd (Adapter.SetOpen drv true a)) =
    (Adapter.DEVICE_OK, true).
Proof.
  intros drv a.
  destruct (SetOpen_then_GetOpen drv true a) as (_ & Hok & _).
  assert (fst (Adapter.SetOpen drv true a) = Adapter.DEVICE_OK) as Hr
    by reflexivity.
  split; [exact Hr|]. apply Hok. exact Hr.
Defined.

Lemma OnActiveChannel_set_witness :
  let drv := mock never in
  let a := adapter_on (constructed drv zeroed) in
  let res := Adapter.OnActiveChannel drv "CH2" Adapter.AfterSet a in
  fst (fst res) = Adapter.ERR_WRITE_FAILED /\
  Adapter.activeChannel_ (snd res) = "CH2"%string /\
  Adapter.activeChannelState_ (snd res) = false.
Proof.
  intros drv a res.
  destruct (OnActiveChannel_set drv "CH2" a) as (Hch & _ & Hfail & _).
  destruct Hfail as (Hr & Hs & _); [reflexivity|].
  split; [exact Hr|]. split; [exact Hch|exact Hs].
Defined.

Lemma OnActiveChannel_get_witness :
  let drv := mock never in
  let a := adapter_on (opened drv) in
  let res := Adapter.OnActiveChannel drv "" Adapter.BeforeGet a in
  fst res = (Adapter.DEVICE_OK, Some "1.50"%string) /\
  Adapter.activeChannel_ (snd res) = "1.50"%string.
Proof.
  intros drv a res.
  destruct (OnActiveChannel_get drv "" a) as (_ & Hok & _).
  destruct Hok as (Hr & Hch & _).
  - intros H. vm_compute in H. discriminate H.
  - split; [etransitivity; [exact Hr|reflexivity]|].
    etransitivity; [exact Hch|reflexivity].
Defined.

Lemma ctor_assigns_session_only_witness :
  let drv := mock never in
  initialized_ (self (constructed drv stale_open)) = true /\
  open_ (self (constructed drv stale_open)) = true /\
  map fst (trace (constructed drv stale_open)) = [viOpenDefaultRM].
Proof.
  intros drv.
  destruct (ctor_assigns_session_only drv stale_open)
    as ((_ & _ & Ho & _) & Hok & _).
  destruct Hok as (Hi & _ & Ht); [apply Z.leb_le; reflexivity|].
  split; [exact Hi|]. split; [exact Ho|exact Ht].
Defined.
